(** * Futures snapshots and the timer heap of the asyncio benchmarks

    A shallow embedding of
    - [bench_lockless_finished.py]: the two implementations of
      [Future._get_snapshot], one always taking the condition's lock and one
      skipping it for finished futures;
    - [bench/timer_handle_heap.py]: timer handles pushed on a [heapq] heap,
      bare or wrapped in a [(when, handle)] tuple, and popped until the heap
      is empty.

    Python objects are dynamically typed: a single type [value] holds what
    the modelled code stores and returns.  Attribute loads and stores of the
    future and the entry and exit of [with self._condition] are the atomic
    actions of a small program monad, which is run either by one thread
    alone or interleaved with other threads. *)

From Stdlib Require Import ZArith Lia.
From stdpp Require Import base option strings list sorting gmap.

(** ** Python values *)

#[local] Unset Elimination Schemes.
Inductive value : Type :=
| VNone
| VBool (b : bool)
| VInt (n : Z)
| VStr (s : string)
| VExc (cls msg : string)
| VTuple (items : list value).
#[local] Set Elimination Schemes.

(** The 4-tuple [(is_done, is_cancelled, result, exception)]. *)
Definition snapshot (done cancelled : bool) (res exc : value) : value :=
  VTuple [VBool done; VBool cancelled; res; exc].

(** ** The future object

    [_condition] is the owner of the condition's lock, if any thread holds
    it.  Threads are numbered. *)

Record Future : Type := mkFuture {
  _state : string;
  _result : value;
  _exception : value;
  _condition : option nat;
  _waiters : list nat
}.

Definition set_state (s : string) (o : Future) : Future :=
  mkFuture s (_result o) (_exception o) (_condition o) (_waiters o).
Definition set_result_field (v : value) (o : Future) : Future :=
  mkFuture (_state o) v (_exception o) (_condition o) (_waiters o).
Definition set_exception_field (v : value) (o : Future) : Future :=
  mkFuture (_state o) (_result o) v (_condition o) (_waiters o).
Definition set_condition (l : option nat) (o : Future) : Future :=
  mkFuture (_state o) (_result o) (_exception o) l (_waiters o).

(** A future as [Future()] creates it. *)
Definition new_future : Future := mkFuture "PENDING" VNone VNone None [].

(** ** Programs over the future's atomic actions *)

Inductive prog : Type :=
| Return (r : value)
| Raise (exc : value)
| LoadState (k : string → prog)
| LoadResult (k : value → prog)
| LoadException (k : value → prog)
| StoreState (s : string) (k : prog)
| StoreResult (v : value) (k : prog)
| StoreException (v : value) (k : prog)
| Acquire (k : prog)
| Release (k : prog).

(** Leaving a [with] block, by [return] or by an exception, releases the
    lock first. *)
Fixpoint on_exit (p : prog) : prog :=
  match p with
  | Return r => Release (Return r)
  | Raise e => Release (Raise e)
  | LoadState k => LoadState (λ s, on_exit (k s))
  | LoadResult k => LoadResult (λ v, on_exit (k v))
  | LoadException k => LoadException (λ v, on_exit (k v))
  | StoreState s k => StoreState s (on_exit k)
  | StoreResult v k => StoreResult v (on_exit k)
  | StoreException v k => StoreException v (on_exit k)
  | Acquire k => Acquire (on_exit k)
  | Release k => Release (on_exit k)
  end.

(** [with self._condition: body] *)
Definition with_condition (body : prog) : prog := Acquire (on_exit body).

Notation "'self._state' ≫= k" := (LoadState k) (at level 60, right associativity).
Notation "'self._result' ≫= k" := (LoadResult k) (at level 60, right associativity).
Notation "'self._exception' ≫= k" := (LoadException k) (at level 60, right associativity).

(** [x in {"CANCELLED", "CANCELLED_AND_NOTIFIED"}] and the like. *)
Definition py_in (x : string) (set : list string) : bool :=
  existsb (String.eqb x) set.

(** ** The two snapshot implementations *)

(** Lines 14-18 and 30-34: the body both functions run under the lock. *)
Definition locked_snapshot : prog :=
  self._state ≫= λ s,
  if String.eqb s "FINISHED" then
    self._result ≫= λ r, self._exception ≫= λ e,
    Return (snapshot true false r e)
  else
    self._state ≫= λ s',
    if py_in s' ["CANCELLED"; "CANCELLED_AND_NOTIFIED"] then
      Return (snapshot true true VNone VNone)
    else
      Return (snapshot false false VNone VNone).

Definition _get_snapshot_with_lock : prog :=
  with_condition locked_snapshot.

Definition _get_snapshot_lockless_finished : prog :=
  self._state ≫= λ s,
  if String.eqb s "FINISHED" then
    self._result ≫= λ r, self._exception ≫= λ e,
    Return (snapshot true false r e)
  else
    with_condition locked_snapshot.

(** ** One atomic action of thread [me] *)

Definition RuntimeError : value :=
  VExc "RuntimeError" "cannot release un-acquired lock".

(** [None]: the thread cannot move, because it has finished or because it
    waits for the lock. *)
Definition tstep (me : nat) (o : Future) (p : prog) : option (Future * prog) :=
  match p with
  | Return _ | Raise _ => None
  | LoadState k => Some (o, k (_state o))
  | LoadResult k => Some (o, k (_result o))
  | LoadException k => Some (o, k (_exception o))
  | StoreState s k => Some (set_state s o, k)
  | StoreResult v k => Some (set_result_field v o, k)
  | StoreException v k => Some (set_exception_field v o, k)
  | Acquire k =>
      match _condition o with
      | None => Some (set_condition (Some me) o, k)
      | Some _ => None
      end
  | Release k =>
      if bool_decide (_condition o = Some me)
      then Some (set_condition None o, k)
      else Some (o, Raise RuntimeError)
  end.

(** ** A call that runs with no other thread *)

Inductive outcome : Type :=
| Returned (r : value) (o : Future)
| Raised (exc : value) (o : Future)
| Blocked.

Fixpoint run (me : nat) (p : prog) (o : Future) : outcome :=
  match p with
  | Return r => Returned r o
  | Raise e => Raised e o
  | LoadState k => run me (k (_state o)) o
  | LoadResult k => run me (k (_result o)) o
  | LoadException k => run me (k (_exception o)) o
  | StoreState s k => run me k (set_state s o)
  | StoreResult v k => run me k (set_result_field v o)
  | StoreException v k => run me k (set_exception_field v o)
  | Acquire k =>
      match _condition o with
      | None => run me k (set_condition (Some me) o)
      | Some _ => Blocked
      end
  | Release k =>
      if bool_decide (_condition o = Some me)
      then run me k (set_condition None o)
      else Raised RuntimeError o
  end.

(** The states in which [_get_snapshot] reports the future as done. *)
Definition terminal_states : list string :=
  ["CANCELLED"; "CANCELLED_AND_NOTIFIED"; "FINISHED"].

(** What [locked_snapshot] followed by the release returns to a thread that
    holds the lock. *)
Definition snapshot_of (o : Future) : value :=
  if String.eqb (_state o) "FINISHED" then
    snapshot true false (_result o) (_exception o)
  else if py_in (_state o) ["CANCELLED"; "CANCELLED_AND_NOTIFIED"] then
    snapshot true true VNone VNone
  else snapshot false false VNone VNone.

(** ** Resolving a future

    [Future.set_result], [Future.set_exception] and [Future.cancel] of
    [concurrent.futures] are called by the benchmark; their code is not
    among the sources.  All three follow section 5, where the lock "guards
    every field transition", and section 4.2, where the state "must be
    written only after the result/error payload is fully populated".  The
    state graph has no edge out of CANCELLED other than to
    CANCELLED_AND_NOTIFIED and scenario D has [set_result] fail on a
    cancelled future, so the three states of [terminal_states] all reject a
    resolution. *)

(** Modelled from the spec: the error of section 7, "invalid
    re-resolution", which "must be reported (raised/returned as error)". *)
Definition InvalidStateError (s : string) : value :=
  VExc "InvalidStateError" s.

(** Modelled from the spec: [Future.set_result], missing from the sources.
    Section 4.2: "transitions to FINISHED with the given value.  Fails
    (logic error, must not silently overwrite) if already in a terminal
    state." *)
Definition set_result (v : value) : prog :=
  with_condition (
    self._state ≫= λ s,
    if py_in s terminal_states then Raise (InvalidStateError s)
    else StoreResult v (StoreState "FINISHED" (Return VNone))).

(** Modelled from the spec: [Future.set_exception], missing from the
    sources.  Section 4.2: "transitions to FINISHED carrying an error
    payload instead of a value.  Same terminality constraint." *)
Definition set_exception (e : value) : prog :=
  with_condition (
    self._state ≫= λ s,
    if py_in s terminal_states then Raise (InvalidStateError s)
    else StoreException e (StoreState "FINISHED" (Return VNone))).

(** Modelled from the spec: [Future.cancel], missing from the sources.
    Section 4.2: "transitions PENDING/RUNNING to CANCELLED; returns whether
    cancellation succeeded (false if already terminal)." *)
Definition cancel : prog :=
  with_condition (
    self._state ≫= λ s,
    if py_in s ["PENDING"; "RUNNING"] then
      StoreState "CANCELLED" (Return (VBool true))
    else Return (VBool false)).

(** The three resolution attempts and their success. *)
Inductive resolution : Type :=
| SetResult (v : value)
| SetException (e : value)
| Cancel.

Definition call (r : resolution) : prog :=
  match r with
  | SetResult v => set_result v
  | SetException e => set_exception e
  | Cancel => cancel
  end.

(** [set_result] and [set_exception] return [None], and [cancel] returns
    [True], when they succeed. *)
Definition is_success (r : value) : bool :=
  match r with
  | VNone | VBool true => true
  | _ => false
  end.

Definition succeeded (out : outcome) : bool :=
  match out with
  | Returned r _ => is_success r
  | _ => false
  end.

Definition future_after (o : Future) (out : outcome) : Future :=
  match out with
  | Returned _ o' | Raised _ o' => o'
  | Blocked => o
  end.

(** The attempts of [rs], one after the other, on the same future: their
    outcomes and the future they leave. *)
Fixpoint resolve_all (me : nat) (rs : list resolution) (o : Future)
  : list outcome * Future :=
  match rs with
  | [] => ([], o)
  | r :: rs' =>
      let out := run me (call r) o in
      let '(outs, o') := resolve_all me rs' (future_after o out) in
      (out :: outs, o')
  end.

Definition successes (outs : list outcome) : nat :=
  length (filter (λ out, succeeded out = true) outs).

(** ** Threads sharing one future *)

Definition config : Type := Future * list prog.

(** Thread [i] is the [i]-th program of the pool; one step of the system is
    one atomic action of one thread. *)
Inductive step : config → config → Prop :=
| step_thread (i : nat) (o o' : Future) (ts : list prog) (p p' : prog) :
    ts !! i = Some p →
    tstep i o p = Some (o', p') →
    step (o, ts) (o', <[i := p']> ts).

(** The calls a thread may make on the future. *)
Inductive api_call : prog → Prop :=
| api_snapshot_with_lock : api_call _get_snapshot_with_lock
| api_snapshot_lockless : api_call _get_snapshot_lockless_finished
| api_set_result (v : value) : api_call (set_result v)
| api_set_exception (e : value) : api_call (set_exception e)
| api_cancel : api_call cancel.

(** *** The lock discipline

    [guard o] is what a thread must know of the future to store into it.
    A thread outside the lock only loads; a thread inside stores under the
    guard and leaves by releasing. *)
Section discipline.
Variable guard : Future → Prop.

Fixpoint outside_ok (p : prog) : Prop :=
  match p with
  | Return _ | Raise _ => True
  | LoadState k => ∀ s, outside_ok (k s)
  | LoadResult k | LoadException k => ∀ v, outside_ok (k v)
  | StoreState _ _ | StoreResult _ _ | StoreException _ _ => False
  | Acquire k => ∀ o, inside_ok k o
  | Release _ => False
  end
with inside_ok (p : prog) (o : Future) : Prop :=
  match p with
  | Return _ | Raise _ => False
  | LoadState k => inside_ok (k (_state o)) o
  | LoadResult k => inside_ok (k (_result o)) o
  | LoadException k => inside_ok (k (_exception o)) o
  | StoreState s k => guard o ∧ inside_ok k (set_state s o)
  | StoreResult v k => guard o ∧ inside_ok k (set_result_field v o)
  | StoreException v k => guard o ∧ inside_ok k (set_exception_field v o)
  | Acquire _ => False
  | Release k => outside_ok k
  end.

Definition thread_ok (o : Future) (i : nat) (p : prog) : Prop :=
  if bool_decide (_condition o = Some i) then inside_ok p o
  else outside_ok p.

Definition disciplined (c : config) : Prop :=
  ∀ i p, c.2 !! i = Some p → thread_ok c.1 i p.
End discipline.

(** Every store respects the lock; nothing more is asked. *)
Definition lock_only (o : Future) : Prop := True.
(** Publish once: nothing is stored into a finished future. *)
Definition unfinished (o : Future) : Prop := _state o ≠ "FINISHED".

(** [o'] keeps the state and payload of [o] if [o] is finished. *)
Definition frozen (o o' : Future) : Prop :=
  _state o = "FINISHED" →
  _state o' = "FINISHED" ∧ _result o' = _result o
  ∧ _exception o' = _exception o.

(** Whatever finished snapshot [p] goes on to return is the payload of the
    future, as long as the other threads keep finished futures frozen. *)
Fixpoint reads_final (p : prog) (o : Future) : Prop :=
  match p with
  | Return r =>
      ∀ v e, r = snapshot true false v e →
        _state o = "FINISHED" ∧ _result o = v ∧ _exception o = e
  | Raise _ => True
  | LoadState k => ∀ o', frozen o o' → reads_final (k (_state o')) o'
  | LoadResult k => ∀ o', frozen o o' → reads_final (k (_result o')) o'
  | LoadException k => ∀ o', frozen o o' → reads_final (k (_exception o')) o'
  | StoreState _ k | StoreResult _ k | StoreException _ k =>
      ∀ o', reads_final k o'
  | Acquire k | Release k => ∀ o', frozen o o' → reads_final k o'
  end.

(** Thread [i] holds the lock and, left to run, releases it and returns [r]
    at once. *)
Fixpoint returns_under_lock (p : prog) (o : Future) (r : value) : Prop :=
  match p with
  | LoadState k => returns_under_lock (k (_state o)) o r
  | LoadResult k => returns_under_lock (k (_result o)) o r
  | LoadException k => returns_under_lock (k (_exception o)) o r
  | Release k => k = Return r
  | _ => False
  end.

(** The threads of [sched] take one step each, in that order. *)
Fixpoint run_schedule (sched : list nat) (c : config) : option config :=
  match sched with
  | [] => Some c
  | i :: sched' =>
      match c.2 !! i with
      | Some p =>
          match tstep i c.1 p with
          | Some (o', p') => run_schedule sched' (o', <[i := p']> c.2)
          | None => None
          end
      | None => None
      end
  end.

(** What the system keeps true while API calls run on the future. *)
Definition publish_once (c : config) : Prop :=
  disciplined unfinished c
  ∧ ∀ i p, c.2 !! i = Some p → reads_final p c.1.

(** Thread [i] is in the locked part of its snapshot, or has returned. *)
Definition snapshot_pending (i : nat) (r : value) (c : config) : Prop :=
  disciplined lock_only c
  ∧ ((_condition c.1 = Some i
      ∧ ∃ p, c.2 !! i = Some p ∧ returns_under_lock p c.1 r)
     ∨ c.2 !! i = Some (Return r)).

(** *** The [with] blocks are atomic *)

(** [p] is the rest of a [with] block: it ends by releasing the lock and
    returning or raising at once. *)
Fixpoint leaves_lock (p : prog) : Prop :=
  match p with
  | LoadState k => ∀ s, leaves_lock (k s)
  | LoadResult k | LoadException k => ∀ v, leaves_lock (k v)
  | StoreState _ k | StoreResult _ k | StoreException _ k => leaves_lock k
  | Release (Return _) | Release (Raise _) => True
  | _ => False
  end.

(** [p] is what is left of the call [p0], outside the lock: loads, then
    either a return that is no success or a [with] block that is the whole
    of a resolution or of a locked snapshot. *)
Fixpoint calls_ok (p0 p : prog) : Prop :=
  match p with
  | Return r => is_success r = false
  | Raise _ => True
  | LoadState k => ∀ s, calls_ok p0 (k s)
  | LoadResult k | LoadException k => ∀ v, calls_ok p0 (k v)
  | Acquire k =>
      (Acquire k = p0 ∧ ∃ r, p0 = call r)
      ∨ Acquire k = _get_snapshot_with_lock
  | _ => False
  end.

Definition holds (o : Future) (i : nat) : bool :=
  bool_decide (_condition o = Some i).

(** The future as it is once the thread in the [with] block, if any, has
    left it. *)
Definition settled (c : config) : Future :=
  match _condition c.1 with
  | Some i =>
      match c.2 !! i with
      | Some p => future_after c.1 (run i p c.1)
      | None => c.1
      end
  | None => c.1
  end.

(** Thread [i] has returned a success, or is in the [with] block that ends
    with one. *)
Definition will_succeed (o : Future) (i : nat) (p : prog) : bool :=
  if holds o i then succeeded (run i p o)
  else match p with Return r => is_success r | _ => false end.

(** The threads of [ts0] started on the future [o0]: the settled future is
    what some of their resolutions, run one after the other, make of [o0],
    and at most one thread succeeds. *)
Definition atomic_inv (o0 : Future) (ts0 : list prog) (c : config) : Prop :=
  (∀ i p, c.2 !! i = Some p →
     ∃ p0, ts0 !! i = Some p0
       ∧ if holds c.1 i then leaves_lock p
         else calls_ok p0 p ∨ ∃ r, p = Return r)
  ∧ _condition (settled c) = None
  ∧ (∃ rs, settled c = (resolve_all 0 rs o0).2
       ∧ Forall (λ r, call r ∈ ts0) rs)
  ∧ (∀ i p, c.2 !! i = Some p → will_succeed c.1 i p = true →
       _state (settled c) ∈ terminal_states)
  ∧ (∀ i j p q, c.2 !! i = Some p → c.2 !! j = Some q →
       will_succeed c.1 i p = true → will_succeed c.1 j q = true → i = j).

(** * Timer handles on a heap

    ** heapq

    The benchmark calls [heapq.heappush] and [heapq.heappop], whose code is
    not among the sources.  The "binary min-heap" of section 4.1 is modelled
    as the array heap those names stand for: the parent of index [pos] is at
    [(pos - 1) >> 1], the children of [pos] at [2 * pos + 1] and
    [2 * pos + 2], and only [<] compares items. *)

(** Python's [<], that is [__lt__]. *)
Class Lt (A : Type) := py_lt : A → A → bool.

(** What a heap needs of [<]: a strict weak order. *)
Class LtOrder (A : Type) `{Lt A} : Prop := {
  lt_asym (a b : A) : py_lt a b = true → py_lt b a = false;
  lt_negtrans (a b c : A) :
    py_lt b a = false → py_lt c b = false → py_lt c a = false
}.

(** Modelled from the spec: the parent of [pos] in the array heap,
    [(pos - 1) >> 1] in [heapq], missing from the sources. *)
Definition parent (pos : nat) : nat := (pos - 1) / 2.

Section heapq.
Context {A : Type} `{Lt A}.

(** Modelled from the spec: the loop of [heapq._siftdown], missing from
    the sources, for the "binary min-heap" of section 4.1: [newitem] moves
    towards [startpos] past every parent it is smaller than.  [pos]
    decreases, so [pos] rounds suffice. *)
Fixpoint _siftdown_loop (fuel : nat) (heap : list A) (startpos pos : nat)
    (newitem : A) : list A :=
  match fuel with
  | 0 => <[pos := newitem]> heap
  | S fuel' =>
      if bool_decide (startpos < pos) then
        let parentpos := parent pos in
        match heap !! parentpos with
        | Some parent_item =>
            if py_lt newitem parent_item then
              _siftdown_loop fuel' (<[pos := parent_item]> heap)
                startpos parentpos newitem
            else <[pos := newitem]> heap
        | None => <[pos := newitem]> heap
        end
      else <[pos := newitem]> heap
  end.

(** Modelled from the spec: [heapq._siftdown], missing from the sources:
    the item at [pos] finds its place between [startpos] and [pos]. *)
Definition _siftdown (heap : list A) (startpos pos : nat) : list A :=
  match heap !! pos with
  | Some newitem => _siftdown_loop pos heap startpos pos newitem
  | None => heap
  end.

(** Modelled from the spec: the choice of the smaller child in
    [heapq._siftup], missing from the sources:
    [rightpos < endpos and not heap[childpos] < heap[rightpos]]. *)
Definition right_is_smaller (heap : list A) (endpos childpos : nat) : bool :=
  match heap !! childpos, heap !! (childpos + 1) with
  | Some l, Some r => bool_decide (childpos + 1 < endpos) && negb (py_lt l r)
  | _, _ => false
  end.

(** Modelled from the spec: the loop of [heapq._siftup], missing from the
    sources: the smaller child moves up until [pos] is a leaf.  [pos]
    increases, so [endpos] rounds suffice. *)
Fixpoint _siftup_loop (fuel : nat) (heap : list A) (endpos pos : nat)
    : list A * nat :=
  match fuel with
  | 0 => (heap, pos)
  | S fuel' =>
      let childpos := 2 * pos + 1 in
      if bool_decide (childpos < endpos) then
        let childpos :=
          if right_is_smaller heap endpos childpos
          then childpos + 1 else childpos in
        match heap !! childpos with
        | Some child => _siftup_loop fuel' (<[pos := child]> heap)
                          endpos childpos
        | None => (heap, pos)
        end
      else (heap, pos)
  end.

(** Modelled from the spec: [heapq._siftup], missing from the sources:
    the hole left at [pos] sinks to a leaf, where the item that was at
    [pos] is written and sifted back. *)
Definition _siftup (heap : list A) (pos : nat) : list A :=
  match heap !! pos with
  | Some newitem =>
      let '(heap', pos') :=
        _siftup_loop (length heap) heap (length heap) pos in
      _siftdown (<[pos' := newitem]> heap') pos pos'
  | None => heap
  end.

(** Modelled from the spec: [heapq.heappush], missing from the sources:
    the insertion "into a binary min-heap" of section 4.1. *)
Definition heappush (heap : list A) (item : A) : list A :=
  let heap := heap ++ [item] in
  _siftdown heap 0 (length heap - 1).

(** Modelled from the spec: [heapq.heappop], missing from the sources:
    it "removes the minimum" (section 4.1).  [None] is the [IndexError]
    of popping from an empty list. *)
Definition heappop (heap : list A) : option (A * list A) :=
  match last heap with
  | None => None
  | Some lastelt =>
      let heap := take (length heap - 1) heap in
      match heap with
      | returnitem :: _ => Some (returnitem, _siftup (<[0 := lastelt]> heap) 0)
      | [] => Some (lastelt, [])
      end
  end.

(** [while scheduled: item = heappop(scheduled)]: the items in the order
    they are popped. *)
Fixpoint drain_loop (fuel : nat) (scheduled : list A) : list A :=
  match fuel with
  | 0 => []
  | S fuel' =>
      match heappop scheduled with
      | Some (item, scheduled') => item :: drain_loop fuel' scheduled'
      | None => []
      end
  end.

Definition drain (scheduled : list A) : list A :=
  drain_loop (length scheduled) scheduled.

(** No item is smaller than its parent. *)
Definition is_heap (heap : list A) : Prop :=
  ∀ i x y, 0 < i → heap !! i = Some x → heap !! parent i = Some y →
    py_lt x y = false.

(** [heap] is a heap but for the item at [pos], which is yet to be
    written. *)
Definition hole_ok (heap : list A) (pos : nat) : Prop :=
  (∀ i x y, 0 < i → i ≠ pos → parent i ≠ pos →
     heap !! i = Some x → heap !! parent i = Some y → py_lt x y = false)
  ∧ (∀ c x z, 0 < pos → 0 < c → parent c = pos →
     heap !! c = Some x → heap !! parent pos = Some z → py_lt x z = false).

Definition above_children (heap : list A) (pos : nat) (newitem : A) : Prop :=
  ∀ c x, 0 < c → parent c = pos → heap !! c = Some x →
    py_lt x newitem = false.
End heapq.

(** ** Timer handles *)

(** Modelled from the spec: [asyncio.TimerHandle], which the benchmark
    constructs and whose code is not among the sources.  Section 3: a handle
    has an "absolute deadline", an "opaque callback", a "monotonically
    increasing insertion sequence number" and a "cancelled flag".  The flag
    is the one mutable attribute; it is kept by the scheduler under the
    sequence number of the handle (section 9: "cancellation flips a flag
    reachable through that identifier without touching heap order"), so
    that a handle in the heap and the handle the caller holds share it. *)
Record TimerHandle : Type := mkTimerHandle {
  _when : Z;
  _seq : nat;
  _callback : string
}.

(** Modelled from the spec: [TimerHandle.__lt__], missing from the
    sources.  Section 3: "total order by (deadline, sequence number)". *)
#[export] Instance TimerHandle_lt : Lt TimerHandle := λ a b,
  (_when a <? _when b)%Z
  || ((_when a =? _when b)%Z && (_seq a <? _seq b)).

(** Modelled from the spec: [TimerHandle.__eq__], missing from the
    sources: the handles that the order of section 3 does not tell apart. *)
Definition TimerHandle_eq (a b : TimerHandle) : bool :=
  (_when a =? _when b)%Z && (_seq a =? _seq b).

(** [(when, handle) < (when', handle')]: the first items that differ
    decide; equal tuples are not smaller. *)
#[export] Instance tuple_lt : Lt (Z * TimerHandle) := λ a b,
  if negb (a.1 =? b.1)%Z then (a.1 <? b.1)%Z
  else if negb (TimerHandle_eq a.2 b.2) then py_lt a.2 b.2
  else false.

(** ** The benchmark

    The [for] loop of [heap_handle] and [heap_tuple]: [n] more handles, each
    one later than the one before, pushed on the heap.  [seq] is the
    sequence number the next [TimerHandle(...)] takes. *)
Fixpoint push_handles (n : nat) (scheduled : list TimerHandle) (when : Z)
    (seq : nat) : list TimerHandle :=
  match n with
  | 0 => scheduled
  | S n' =>
      let when := (when + 1)%Z in
      let handle := mkTimerHandle when seq "callback" in
      push_handles n' (heappush scheduled handle) when (S seq)
  end.

Fixpoint push_tuples (n : nat) (scheduled : list (Z * TimerHandle)) (when : Z)
    (seq : nat) : list (Z * TimerHandle) :=
  match n with
  | 0 => scheduled
  | S n' =>
      let when := (when + 1)%Z in
      let handle := mkTimerHandle when seq "callback" in
      push_tuples n' (heappush scheduled (when, handle)) when (S seq)
  end.

(** The functions return nothing; the model keeps what the [while] loop
    pops, in order. *)
Definition heap_tuple : list (Z * TimerHandle) :=
  drain (push_tuples 100 [] 1 0).

Definition heap_handle : list TimerHandle :=
  drain (push_handles 100 [] 1 0).

(** ** The scheduler

    The operations [schedule], [cancel] and [pop_ready] of section 4.1, of
    which the sources have only the pushes and pops of the benchmark. *)
Module DeadlineHeap.

(** Modelled from the spec: the scheduler of section 4.1, missing from
    the sources: the heap of handles, the cancelled flags by sequence
    number, and the next sequence number. *)
Record Scheduler : Type := mkScheduler {
  _scheduled : list TimerHandle;
  _cancelled : gset nat;
  _next_seq : nat
}.

Definition new_scheduler : Scheduler := mkScheduler [] ∅ 0.

(** Modelled from the spec: [schedule], missing from the sources.
    Section 4.1: "constructs a handle with a fresh sequence number,
    inserts it into a binary min-heap keyed by (deadline, sequence
    number).  Returns the handle". *)
Definition schedule (deadline : Z) (callback : string) (s : Scheduler)
    : TimerHandle * Scheduler :=
  let handle := mkTimerHandle deadline (_next_seq s) callback in
  (handle,
   mkScheduler (heappush (_scheduled s) handle) (_cancelled s)
     (S (_next_seq s))).

(** Modelled from the spec: [cancel], missing from the sources.  Section
    4.1: "sets the handle's cancelled flag.  Does not touch the heap's
    physical structure." *)
Definition cancel (handle : TimerHandle) (s : Scheduler) : Scheduler :=
  mkScheduler (_scheduled s) ({[_seq handle]} ∪ _cancelled s) (_next_seq s).

(** Modelled from the spec: the "cancelled flag" of a handle
    (section 3), read through its sequence number. *)
Definition is_cancelled (cancelled : gset nat) (handle : TimerHandle) : bool :=
  bool_decide (_seq handle ∈ cancelled).

(** Modelled from the spec: the loop of [pop_ready], missing from the
    sources.  Section 4.1: "repeatedly removes the minimum-deadline
    handle; while the removed handle is cancelled, discards it and
    continues; stops and returns the first non-cancelled handle whose
    deadline ≤ now, or returns none ready if the heap is empty or the
    minimum deadline is in the future."  The minimum is looked at before
    it is removed, so that a handle that is not yet due stays in the
    heap.  Each round removes one handle or stops, so as many rounds as
    the heap has handles suffice. *)
Fixpoint pop_ready_loop (fuel : nat) (now : Z) (cancelled : gset nat)
    (scheduled : list TimerHandle) : option TimerHandle * list TimerHandle :=
  match fuel with
  | 0 => (None, scheduled)
  | S fuel' =>
      match scheduled !! 0 with
      | None => (None, scheduled)
      | Some handle =>
          if is_cancelled cancelled handle then
            match heappop scheduled with
            | Some (_, scheduled') =>
                pop_ready_loop fuel' now cancelled scheduled'
            | None => (None, scheduled)
            end
          else if bool_decide (_when handle ≤ now)%Z then
            match heappop scheduled with
            | Some (handle, scheduled') => (Some handle, scheduled')
            | None => (None, scheduled)
            end
          else (None, scheduled)
      end
  end.

(** Modelled from the spec: [pop_ready] of section 4.1, missing from the
    sources. *)
Definition pop_ready (now : Z) (s : Scheduler)
    : option TimerHandle * Scheduler :=
  let '(ready, scheduled) :=
    pop_ready_loop (length (_scheduled s)) now (_cancelled s) (_scheduled s) in
  (ready, mkScheduler scheduled (_cancelled s) (_next_seq s)).

(** The operations a caller makes, one after the other. *)
Inductive op : Type :=
| Schedule (deadline : Z) (callback : string)
| Cancel (handle : TimerHandle)
| PopReady (now : Z).

Definition apply_op (o : op) (s : Scheduler) : Scheduler :=
  match o with
  | Schedule deadline callback => (schedule deadline callback s).2
  | Cancel handle => cancel handle s
  | PopReady now => (pop_ready now s).2
  end.

Fixpoint run_ops (ops : list op) (s : Scheduler) : Scheduler :=
  match ops with
  | [] => s
  | o :: ops' => run_ops ops' (apply_op o s)
  end.

(** [pop_ready(now)] again and again until none is ready. *)
Fixpoint pop_all_ready (fuel : nat) (now : Z) (s : Scheduler)
    : list TimerHandle :=
  match fuel with
  | 0 => []
  | S fuel' =>
      match pop_ready now s with
      | (Some handle, s') => handle :: pop_all_ready fuel' now s'
      | (None, _) => []
      end
  end.
End DeadlineHeap.

(** * The contention test and the benchmark loops, for any size *)

(** [p], then [f] on what [p] returns; what [p] raises goes through. *)
Fixpoint bind (p : prog) (f : value → prog) : prog :=
  match p with
  | Return r => f r
  | Raise e => Raise e
  | LoadState k => LoadState (λ s, bind (k s) f)
  | LoadResult k => LoadResult (λ v, bind (k v) f)
  | LoadException k => LoadException (λ v, bind (k v) f)
  | StoreState s k => StoreState s (bind k f)
  | StoreResult v k => StoreResult v (bind k f)
  | StoreException v k => StoreException v (bind k f)
  | Acquire k => Acquire (bind k f)
  | Release k => Release (bind k f)
  end.

(** Lines 135-137 of [bench_lockless_finished.py]:
    [for _ in range(iterations): future._get_snapshot()], where
    [_get_snapshot] is the implementation [concurrent_test] has installed. *)
Fixpoint worker (_get_snapshot : prog) (iterations : nat) : prog :=
  match iterations with
  | 0 => Return VNone
  | S n => bind _get_snapshot (λ _, worker _get_snapshot n)
  end.

(** Lines 142-145: the four threads [concurrent_test] starts. *)
Definition concurrent_test (impl_func : prog) (iterations : nat) : list prog :=
  replicate 4 (worker impl_func iterations).

(** A worker of either implementation, of any number of iterations. *)
Inductive snapshot_worker : prog → Prop :=
| worker_with_lock (n : nat) :
    snapshot_worker (worker _get_snapshot_with_lock n)
| worker_lockless (n : nat) :
    snapshot_worker (worker _get_snapshot_lockless_finished n).

(** [o'] is [o] but for the owner of the lock. *)
Definition same_fields (o o' : Future) : Prop :=
  set_condition None o' = set_condition None o.

(** [p] stores nothing and raises nothing, and what it returns is in [P]. *)
Fixpoint returns_in (P : value → Prop) (p : prog) : Prop :=
  match p with
  | Return r => P r
  | Raise _ => False
  | LoadState k => ∀ s, returns_in P (k s)
  | LoadResult k | LoadException k => ∀ v, returns_in P (k v)
  | StoreState _ _ | StoreResult _ _ | StoreException _ _ => False
  | Acquire k | Release k => returns_in P k
  end.

Definition returns_none (p : prog) : Prop := returns_in (λ r, r = VNone) p.

Definition is_snapshot (r : value) : Prop :=
  ∃ done cancelled res exc, r = snapshot done cancelled res exc.

(** The atomic actions [p] has yet to take on the future [o]. *)
Fixpoint steps_left (p : prog) (o : Future) : nat :=
  match p with
  | Return _ | Raise _ => 0
  | LoadState k => S (steps_left (k (_state o)) o)
  | LoadResult k => S (steps_left (k (_result o)) o)
  | LoadException k => S (steps_left (k (_exception o)) o)
  | StoreState s k => S (steps_left k (set_state s o))
  | StoreResult v k => S (steps_left k (set_result_field v o))
  | StoreException v k => S (steps_left k (set_exception_field v o))
  | Acquire k | Release k => S (steps_left k o)
  end.

Definition total_steps (c : config) : nat :=
  sum_list ((λ p, steps_left p c.1) <$> c.2).

(** On the future [o], [p] only loads: it neither stores nor takes or
    releases the lock. *)
Fixpoint lock_free_on (o : Future) (p : prog) : Prop :=
  match p with
  | Return _ | Raise _ => True
  | LoadState k => lock_free_on o (k (_state o))
  | LoadResult k => lock_free_on o (k (_result o))
  | LoadException k => lock_free_on o (k (_exception o))
  | _ => False
  end.

(** What the workers keep true. *)
Definition workers_inv (c : config) : Prop :=
  disciplined lock_only c
  ∧ Forall returns_none c.2
  ∧ ∀ i, _condition c.1 = Some i → i < length c.2.

(** Lines 83-88: the set-ups of [states], by name.  [ValueError("test")]
    is the exception of the second. *)
Definition states : list (string * prog) :=
  [("finished", set_result (VInt 100));
   ("exception", set_exception (VExc "ValueError" "test"));
   ("cancelled", cancel);
   ("pending", Return VNone)].

(** Lines 96-116: a fresh future, set up, then read by [_get_snapshot];
    an exception of the set-up leaves the loop before any read. *)
Definition snapshot_after (me : nat) (setup_func _get_snapshot : prog)
    : outcome :=
  match run me setup_func new_future with
  | Returned _ test_future => run me _get_snapshot test_future
  | out => out
  end.

(** A writer that takes the lock but stores the state before the result:
    it is no code of the repository, it is what the lockless snapshot cannot
    be run against. *)
Definition state_first (v : value) : prog :=
  with_condition (StoreState "FINISHED" (StoreResult v (Return VNone))).

(** The handles the [for] loop of [heap_handle] constructs, and the tuples
    of [heap_tuple], in the order of construction. *)
Fixpoint handles_from (n : nat) (when : Z) (seq : nat) : list TimerHandle :=
  match n with
  | 0 => []
  | S n' =>
      mkTimerHandle (when + 1) seq "callback"
      :: handles_from n' (when + 1) (S seq)
  end.

Definition tuples_from (n : nat) (when : Z) (seq : nat)
    : list (Z * TimerHandle) :=
  (λ h, (_when h, h)) <$> handles_from n when seq.

(** * Properties *)

(** ** The snapshots of a future that no other thread touches *)

Lemma set_condition_restore (me : nat) (o : Future) :
  _condition o = None →
  set_condition None (set_condition (Some me) o) = o.
Proof. destruct o as [s r e l w]; simpl; intros ->; reflexivity. Qed.

Lemma run_locked_snapshot (me : nat) (o : Future) :
  _condition o = Some me →
  run me (on_exit locked_snapshot) o
  = Returned (snapshot_of o) (set_condition None o).
Proof.
  intros Hl. unfold snapshot_of, locked_snapshot. cbn [on_exit run].
  destruct (String.eqb (_state o) "FINISHED"); cbn [on_exit run].
  - rewrite bool_decide_eq_true_2 by done. reflexivity.
  - destruct (py_in (_state o) _); cbn [on_exit run];
      rewrite bool_decide_eq_true_2 by done; reflexivity.
Qed.

Lemma run_with_lock (me : nat) (o : Future) :
  _condition o = None →
  run me _get_snapshot_with_lock o = Returned (snapshot_of o) o.
Proof.
  intros Hl. unfold _get_snapshot_with_lock, with_condition.
  cbn [run]. rewrite Hl, run_locked_snapshot by reflexivity.
  rewrite set_condition_restore by done.
  destruct o; reflexivity.
Qed.

Lemma run_lockless_finished (me : nat) (o : Future) :
  _state o = "FINISHED" →
  run me _get_snapshot_lockless_finished o
  = Returned (snapshot true false (_result o) (_exception o)) o.
Proof. intros Hs. simpl. rewrite Hs. reflexivity. Qed.

Lemma run_lockless (me : nat) (o : Future) :
  _condition o = None →
  run me _get_snapshot_lockless_finished o = Returned (snapshot_of o) o.
Proof.
  intros Hl. unfold _get_snapshot_lockless_finished.
  cbn [run]. destruct (String.eqb (_state o) "FINISHED") eqn:Hs.
  - cbn [run]. unfold snapshot_of. rewrite Hs. reflexivity.
  - apply run_with_lock; done.
Qed.

Lemma snapshot_of_finished (o : Future) :
  _state o = "FINISHED" →
  snapshot_of o = snapshot true false (_result o) (_exception o).
Proof. unfold snapshot_of. intros ->. reflexivity. Qed.

Lemma snapshot_of_cancelled (o : Future) :
  _state o = "CANCELLED" ∨ _state o = "CANCELLED_AND_NOTIFIED" →
  snapshot_of o = snapshot true true VNone VNone.
Proof. unfold snapshot_of. intros [-> | ->]; reflexivity. Qed.

Lemma snapshot_of_other (o : Future) :
  _state o ∉ terminal_states →
  snapshot_of o = snapshot false false VNone VNone.
Proof.
  unfold snapshot_of, terminal_states, py_in. intros Hn.
  destruct (String.eqb_spec (_state o) "FINISHED") as [E | _].
  { exfalso. apply Hn. rewrite E. set_solver. }
  cbn [existsb].
  destruct (String.eqb_spec (_state o) "CANCELLED") as [E | _].
  { exfalso. apply Hn. rewrite E. set_solver. }
  destruct (String.eqb_spec (_state o) "CANCELLED_AND_NOTIFIED") as [E | _].
  { exfalso. apply Hn. rewrite E. set_solver. }
  reflexivity.
Qed.

(** ** Resolving a future that no other thread touches *)

Ltac run_locked :=
  repeat first
    [ progress cbn [run on_exit _state _result _exception _waiters
                    _condition set_condition set_state
                    set_result_field set_exception_field]
    | rewrite bool_decide_eq_true_2 by reflexivity ].

Lemma in_terminal_states (s : string) :
  py_in s terminal_states = true ↔ s ∈ terminal_states.
Proof.
  unfold py_in. rewrite existsb_exists. split.
  - intros (x & Hx & Heq). apply String.eqb_eq in Heq. subst.
    by apply list_elem_of_In.
  - intros Hin. exists s. split; [by apply list_elem_of_In|].
    apply String.eqb_refl.
Qed.

Lemma in_terminal_states_false (s : string) :
  py_in s terminal_states = false ↔ s ∉ terminal_states.
Proof.
  rewrite <- in_terminal_states. destruct (py_in s terminal_states); naive_solver.
Qed.

Lemma run_set_result (me : nat) (v : value) (o : Future) :
  _condition o = None →
  run me (set_result v) o =
    if py_in (_state o) terminal_states
    then Raised (InvalidStateError (_state o)) o
    else Returned VNone
           (mkFuture "FINISHED" v (_exception o) None (_waiters o)).
Proof.
  intros Hl. unfold set_result, with_condition. cbn [run]. rewrite Hl.
  run_locked. destruct (py_in (_state o) terminal_states); run_locked.
  - by rewrite set_condition_restore.
  - reflexivity.
Qed.

Lemma run_set_exception (me : nat) (e : value) (o : Future) :
  _condition o = None →
  run me (set_exception e) o =
    if py_in (_state o) terminal_states
    then Raised (InvalidStateError (_state o)) o
    else Returned VNone
           (mkFuture "FINISHED" (_result o) e None (_waiters o)).
Proof.
  intros Hl. unfold set_exception, with_condition. cbn [run]. rewrite Hl.
  run_locked. destruct (py_in (_state o) terminal_states); run_locked.
  - by rewrite set_condition_restore.
  - reflexivity.
Qed.

Lemma run_cancel (me : nat) (o : Future) :
  _condition o = None →
  run me cancel o =
    if py_in (_state o) ["PENDING"; "RUNNING"]
    then Returned (VBool true)
           (mkFuture "CANCELLED" (_result o) (_exception o) None (_waiters o))
    else Returned (VBool false) o.
Proof.
  intros Hl. unfold cancel, with_condition. cbn [run]. rewrite Hl.
  run_locked. destruct (py_in (_state o) _); run_locked.
  - reflexivity.
  - by rewrite set_condition_restore.
Qed.

Lemma terminal_not_cancellable (s : string) :
  s ∈ terminal_states → py_in s ["PENDING"; "RUNNING"] = false.
Proof.
  unfold terminal_states. intros Hs.
  repeat (apply elem_of_cons in Hs as [-> | Hs]; [reflexivity|]).
  by apply elem_of_nil in Hs.
Qed.

(** What one attempt does: it keeps the lock free; it succeeds only by
    entering a terminal state; on a terminal future it fails and stores
    nothing. *)
Lemma call_outcome (me : nat) (r : resolution) (o : Future) :
  _condition o = None →
  let out := run me (call r) o in
  _condition (future_after o out) = None
  ∧ (succeeded out = true → _state (future_after o out) ∈ terminal_states)
  ∧ (_state o ∈ terminal_states →
       succeeded out = false ∧ future_after o out = o).
Proof.
  intros Hl. destruct r as [v | e | ]; cbn [call].
  - rewrite run_set_result by done.
    destruct (py_in (_state o) terminal_states) eqn:Ht; cbn.
    + split_and!; [done | done | done].
    + apply in_terminal_states_false in Ht.
      split_and!; [done | intros _; set_solver | done].
  - rewrite run_set_exception by done.
    destruct (py_in (_state o) terminal_states) eqn:Ht; cbn.
    + split_and!; [done | done | done].
    + apply in_terminal_states_false in Ht.
      split_and!; [done | intros _; set_solver | done].
  - rewrite run_cancel by done.
    destruct (py_in (_state o) ["PENDING"; "RUNNING"]) eqn:Hc; cbn.
    + split_and!; [done | intros _; set_solver |].
      intros Ht. apply terminal_not_cancellable in Ht. congruence.
    + split_and!; [done | done | done].
Qed.

Lemma resolve_all_terminal (me : nat) (rs : list resolution) (o : Future) :
  _condition o = None → _state o ∈ terminal_states →
  successes (resolve_all me rs o).1 = 0 ∧ (resolve_all me rs o).2 = o.
Proof.
  unfold successes. induction rs as [| r rs IH]; intros Hl Ht; [done|].
  cbn [resolve_all].
  destruct (call_outcome me r o Hl) as (_ & _ & Hfail).
  destruct (Hfail Ht) as [Hno Hsame]. rewrite Hsame.
  specialize (IH Hl Ht).
  destruct (resolve_all me rs o) as [outs o']. cbn [fst snd] in *.
  rewrite filter_cons_False by (rewrite Hno; done). done.
Qed.

Lemma resolve_all_once (me : nat) (rs : list resolution) (o : Future) :
  _condition o = None → successes (resolve_all me rs o).1 ≤ 1.
Proof.
  unfold successes. revert o. induction rs as [| r rs IH]; intros o Hl.
  { cbn. lia. }
  cbn [resolve_all].
  destruct (call_outcome me r o Hl) as (Hl' & Hsucc & _).
  destruct (succeeded (run me (call r) o)) eqn:Hs.
  - destruct (resolve_all_terminal me rs _ Hl' (Hsucc eq_refl)) as [H0 _].
    unfold successes in H0.
    destruct (resolve_all me rs _) as [outs o']. cbn [fst snd] in *.
    rewrite filter_cons_True by done. cbn [length]. lia.
  - specialize (IH _ Hl').
    destruct (resolve_all me rs _) as [outs o']. cbn [fst snd] in *.
    rewrite filter_cons_False by (rewrite Hs; done). done.
Qed.

(** ** Threads under the lock discipline *)

Section discipline_facts.
Variable guard : Future → Prop.

Lemma tstep_lock (i : nat) (o o' : Future) (p p' : prog) :
  tstep i o p = Some (o', p') →
  _condition o' = _condition o ∨ _condition o' = Some i
  ∨ _condition o' = None.
Proof.
  destruct p; cbn [tstep]; intros Hs; simplify_eq; auto.
  - destruct (_condition o) eqn:Hl; simplify_eq. auto.
  - case_bool_decide; simplify_eq; auto.
Qed.

(** The thread that steps stays within the discipline. *)
Lemma tstep_thread_ok (i : nat) (o o' : Future) (p p' : prog) :
  thread_ok guard o i p →
  tstep i o p = Some (o', p') →
  thread_ok guard o' i p'.
Proof.
  unfold thread_ok. case_bool_decide as Hown.
  - destruct p; cbn [tstep inside_ok]; intros Hin Hs; simplify_eq;
      try (rewrite bool_decide_eq_true_2 by done; tauto).
    rewrite bool_decide_eq_true_2 in Hs by done. simplify_eq.
    rewrite bool_decide_eq_false_2 by done. done.
  - destruct p; cbn [tstep outside_ok]; intros Hout Hs; simplify_eq;
      try (rewrite bool_decide_eq_false_2 by done; done).
    destruct (_condition o) eqn:Hl; simplify_eq.
    rewrite bool_decide_eq_true_2 by done. apply Hout.
Qed.

(** A thread outside the lock leaves a future locked by another thread
    as it is. *)
Lemma tstep_outside_same (i j : nat) (o o' : Future) (p p' : prog) :
  _condition o = Some j → i ≠ j →
  thread_ok guard o i p →
  tstep i o p = Some (o', p') →
  o' = o.
Proof.
  intros Hl Hij. unfold thread_ok.
  rewrite bool_decide_eq_false_2 by congruence.
  destruct p; cbn [tstep outside_ok]; intros Hout Hs; simplify_eq; try done.
  rewrite Hl in Hs. done.
Qed.

Lemma other_thread_ok (i j : nat) (o o' : Future) (p p' q : prog) :
  i ≠ j →
  thread_ok guard o i p →
  tstep i o p = Some (o', p') →
  thread_ok guard o j q →
  thread_ok guard o' j q.
Proof.
  intros Hij Hp Hs Hq.
  destruct (decide (_condition o = Some j)) as [Hl | Hl].
  - by rewrite (tstep_outside_same i j o o' p p').
  - unfold thread_ok in Hq |- *.
    rewrite bool_decide_eq_false_2 in Hq by done.
    rewrite bool_decide_eq_false_2; [done|].
    destruct (tstep_lock i o o' p p' Hs) as [E | [E | E]];
      rewrite E; congruence.
Qed.

Lemma disciplined_step (c c' : config) :
  disciplined guard c → step c c' → disciplined guard c'.
Proof.
  intros Hd Hstep. destruct Hstep as [i o o' ts p p' Hi Hs].
  intros j q Hj. cbn [fst snd] in *.
  pose proof (Hd i p Hi) as Hp. cbn [fst snd] in Hp.
  destruct (decide (i = j)) as [-> | Hij].
  - rewrite list_lookup_insert_eq in Hj by (by eapply lookup_lt_Some).
    simplify_eq. by eapply tstep_thread_ok.
  - rewrite list_lookup_insert_ne in Hj by done.
    eapply other_thread_ok; [done | exact Hp | exact Hs | by apply Hd].
Qed.

Lemma disciplined_steps (c c' : config) :
  disciplined guard c → rtc step c c' → disciplined guard c'.
Proof. intros Hd Hs. induction Hs; eauto using disciplined_step. Qed.
End discipline_facts.

(** ** A finished future is frozen *)

Lemma frozen_refl (o : Future) : frozen o o.
Proof. by intros Hs. Qed.

Lemma frozen_trans (o1 o2 o3 : Future) :
  frozen o1 o2 → frozen o2 o3 → frozen o1 o3.
Proof.
  unfold frozen. intros H12 H23 Hs.
  destruct (H12 Hs) as (Hs2 & Hr2 & He2).
  destruct (H23 Hs2) as (Hs3 & Hr3 & He3).
  split_and!; congruence.
Qed.

(** Under the publish-once guard, no step of any thread touches the payload
    of a finished future. *)
Lemma tstep_frozen (i : nat) (o o' : Future) (p p' : prog) :
  thread_ok unfinished o i p →
  tstep i o p = Some (o', p') →
  frozen o o'.
Proof.
  unfold thread_ok, unfinished, frozen. case_bool_decide as Hown.
  - destruct p; cbn [tstep inside_ok]; intros Hin Hs Hfin; simplify_eq;
      try done; try tauto.
    case_bool_decide; simplify_eq; done.
  - destruct p; cbn [tstep outside_ok]; intros Hout Hs Hfin; simplify_eq;
      try done.
    destruct (_condition o); simplify_eq. done.
Qed.

Lemma reads_final_frozen (p : prog) (o o' : Future) :
  reads_final p o → frozen o o' → reads_final p o'.
Proof.
  destruct p; cbn [reads_final]; intros Hp Hf; try done;
    try (intros o'' Hf'; apply Hp; by eapply frozen_trans).
  intros v e ->. destruct (Hp v e eq_refl) as (Hs & Hr & He).
  destruct (Hf Hs) as (Hs' & Hr' & He'). split_and!; congruence.
Qed.

Lemma reads_final_tstep (i : nat) (o o' : Future) (p p' : prog) :
  reads_final p o →
  tstep i o p = Some (o', p') →
  reads_final p' o'.
Proof.
  destruct p; cbn [tstep reads_final]; intros Hp Hs; simplify_eq;
    try (apply Hp; apply frozen_refl); try apply Hp.
  - destruct (_condition o); simplify_eq. apply Hp. by intros Hfin.
  - case_bool_decide; simplify_eq; [|done]. apply Hp. by intros Hfin.
Qed.

Lemma publish_once_step (c c' : config) :
  publish_once c → step c c' → publish_once c' ∧ frozen c.1 c'.1.
Proof.
  intros [Hd Hr] Hstep.
  assert (frozen c.1 c'.1) as Hf.
  { destruct Hstep as [i o o' ts p p' Hi Hs]. cbn [fst].
    eapply tstep_frozen; [|exact Hs]. by apply (Hd i p). }
  split; [|done]. split; [by eapply disciplined_step|].
  destruct Hstep as [i o o' ts p p' Hi Hs]. cbn [fst snd] in *.
  intros j q Hj. destruct (decide (i = j)) as [-> | Hij].
  - rewrite list_lookup_insert_eq in Hj by (by eapply lookup_lt_Some).
    simplify_eq. eapply reads_final_tstep; [|exact Hs]. exact (Hr _ _ Hi).
  - rewrite list_lookup_insert_ne in Hj by done.
    eapply reads_final_frozen; [exact (Hr _ _ Hj) | done].
Qed.

Lemma publish_once_steps (c c' : config) :
  publish_once c → rtc step c c' → publish_once c' ∧ frozen c.1 c'.1.
Proof.
  intros Hinv Hs. induction Hs as [c | c1 c2 c3 H12 H23 IH].
  - split; [done | apply frozen_refl].
  - destruct (publish_once_step _ _ Hinv H12) as [Hinv2 Hf12].
    destruct (IH Hinv2) as [Hinv3 Hf23].
    split; [done | by eapply frozen_trans].
Qed.

(** The API calls follow the discipline: they store under the lock and
    only into a future that is not finished. *)
Lemma not_terminal_unfinished (s : string) :
  py_in s terminal_states = false → s ≠ "FINISHED".
Proof.
  intros Hn ->. by vm_compute in Hn.
Qed.

Lemma cancellable_unfinished (s : string) :
  py_in s ["PENDING"; "RUNNING"] = true → s ≠ "FINISHED".
Proof.
  intros Hn ->. by vm_compute in Hn.
Qed.

Lemma locked_snapshot_inside (guard : Future → Prop) (o : Future) :
  inside_ok guard (on_exit locked_snapshot) o.
Proof.
  unfold locked_snapshot. cbn [on_exit inside_ok].
  destruct (String.eqb (_state o) "FINISHED"); cbn [on_exit inside_ok outside_ok];
    [done|].
  destruct (py_in (_state o) _); cbn [on_exit inside_ok outside_ok]; done.
Qed.

Lemma api_call_outside (p : prog) :
  api_call p → outside_ok unfinished p.
Proof.
  destruct 1.
  - intros o. apply locked_snapshot_inside.
  - intros s. destruct (String.eqb s "FINISHED"); cbn [outside_ok]; [done|].
    intros o. apply locked_snapshot_inside.
  - intros o. cbn [on_exit inside_ok].
    destruct (py_in (_state o) terminal_states) eqn:Ht;
      cbn [on_exit inside_ok outside_ok]; [done|].
    apply not_terminal_unfinished in Ht. by unfold unfinished.
  - intros o. cbn [on_exit inside_ok].
    destruct (py_in (_state o) terminal_states) eqn:Ht;
      cbn [on_exit inside_ok outside_ok]; [done|].
    apply not_terminal_unfinished in Ht. by unfold unfinished.
  - intros o. cbn [on_exit inside_ok].
    destruct (py_in (_state o) _) eqn:Ht;
      cbn [on_exit inside_ok outside_ok]; [|done].
    apply cancellable_unfinished in Ht. by unfold unfinished.
Qed.

Lemma locked_snapshot_reads_final (o : Future) :
  reads_final (on_exit locked_snapshot) o.
Proof.
  unfold locked_snapshot. cbn [on_exit reads_final]. intros o1 _.
  destruct (String.eqb_spec (_state o1) "FINISHED") as [Hfin | _];
    cbn [on_exit reads_final].
  - intros o2 H12 o3 H23 o4 H34 v e Heq.
    unfold snapshot in Heq. simplify_eq.
    pose proof (H12 Hfin) as (Hs2 & Hr2 & He2).
    pose proof (H23 Hs2) as (Hs3 & Hr3 & He3).
    pose proof (H34 Hs3) as (Hs4 & Hr4 & He4).
    split_and!; congruence.
  - intros o2 _.
    destruct (py_in (_state o2) _); cbn [on_exit reads_final];
      intros o3 _ v e Heq; unfold snapshot in Heq; simplify_eq.
Qed.

Lemma api_call_reads_final (p : prog) (o : Future) :
  api_call p → reads_final p o.
Proof.
  destruct 1.
  - intros o1 _. apply locked_snapshot_reads_final.
  - cbn [_get_snapshot_lockless_finished reads_final]. intros o1 _.
    destruct (String.eqb_spec (_state o1) "FINISHED") as [Hfin | _];
      cbn [reads_final].
    + intros o2 H12 o3 H23 v e Heq. unfold snapshot in Heq. simplify_eq.
      pose proof (H12 Hfin) as (Hs2 & Hr2 & He2).
      pose proof (H23 Hs2) as (Hs3 & Hr3 & He3).
      split_and!; congruence.
    + intros o2 _. apply locked_snapshot_reads_final.
  - cbn [set_result with_condition on_exit reads_final]. intros o1 _ o2 _.
    destruct (py_in (_state o2) terminal_states);
      cbn [on_exit reads_final]; [done|].
    intros o3 o4 o5 _ v' e' Heq. unfold snapshot in Heq. simplify_eq.
  - cbn [set_exception with_condition on_exit reads_final]. intros o1 _ o2 _.
    destruct (py_in (_state o2) terminal_states);
      cbn [on_exit reads_final]; [done|].
    intros o3 o4 o5 _ v' e' Heq. unfold snapshot in Heq. simplify_eq.
  - cbn [cancel with_condition on_exit reads_final]. intros o1 _ o2 _.
    destruct (py_in (_state o2) _); cbn [on_exit reads_final].
    + intros o3 o4 _ v' e' Heq. unfold snapshot in Heq. simplify_eq.
    + intros o3 _ v' e' Heq. unfold snapshot in Heq. simplify_eq.
Qed.

Lemma api_pool_publish_once (o : Future) (ts : list prog) :
  _condition o = None → Forall api_call ts → publish_once (o, ts).
Proof.
  intros Hl Hts. split; intros i p Hi; cbn [fst snd] in *.
  - unfold thread_ok. rewrite bool_decide_eq_false_2 by congruence.
    apply api_call_outside. eapply Forall_lookup_1; eauto.
  - apply api_call_reads_final. eapply Forall_lookup_1; eauto.
Qed.

(** ** A snapshot taken under the lock *)

Lemma returns_under_lock_tstep (i : nat) (o o' : Future) (p p' : prog)
    (r : value) :
  _condition o = Some i →
  returns_under_lock p o r →
  tstep i o p = Some (o', p') →
  (_condition o' = Some i ∧ returns_under_lock p' o' r) ∨ p' = Return r.
Proof.
  intros Hl. destruct p; cbn [tstep returns_under_lock]; intros Hp Hs;
    simplify_eq; try done; try (left; done).
  rewrite bool_decide_eq_true_2 in Hs by done. simplify_eq. by right.
Qed.

Lemma snapshot_pending_step (i : nat) (r : value) (c c' : config) :
  snapshot_pending i r c → step c c' → snapshot_pending i r c'.
Proof.
  intros [Hd Hcase] Hstep. split; [by eapply disciplined_step|].
  destruct Hstep as [j o o' ts p p' Hj Hs]. cbn [fst snd] in *.
  destruct (decide (j = i)) as [-> | Hji].
  - rewrite list_lookup_insert_eq by (by eapply lookup_lt_Some).
    destruct Hcase as [(Hl & q & Hq & Hret) | Hdone].
    + assert (q = p) as -> by congruence.
      destruct (returns_under_lock_tstep i o o' p p' r Hl Hret Hs)
        as [[Hl' Hret'] | ->]; [left | right]; eauto.
    + assert (p = Return r) as -> by congruence. done.
  - rewrite list_lookup_insert_ne by done.
    destruct Hcase as [(Hl & q & Hq & Hret) | Hdone]; [left | by right].
    assert (o' = o) as ->.
    { eapply (tstep_outside_same lock_only j i); [done..| |exact Hs].
      exact (Hd j p Hj). }
    eauto.
Qed.

Lemma snapshot_pending_steps (i : nat) (r : value) (c c' : config) :
  snapshot_pending i r c → rtc step c c' → snapshot_pending i r c'.
Proof. intros Hp Hs. induction Hs; eauto using snapshot_pending_step. Qed.

(** A load of the holder: one step of thread [i], then the rest by
    induction. *)
Ltac load_runs x :=
  match goal with
  | IH : ∀ y ts, ts !! ?i = Some (?k y) → _,
    Hi : ?ts !! ?i = Some _ |- rtc step (?o, ?ts) (_, <[?i := ?q]> ?ts) =>
      eapply rtc_l;
      [ eapply (step_thread i o o ts); [exact Hi | reflexivity] |];
      rewrite <- (list_insert_insert_eq ts i q (k x));
      apply (IH x); [|done];
      apply list_lookup_insert_eq; by eapply lookup_lt_Some
  end.

(** The holder of the lock is never blocked: it can run to its return. *)
Lemma returns_under_lock_runs (i : nat) (p : prog) (o : Future)
    (ts : list prog) (r : value) :
  _condition o = Some i →
  ts !! i = Some p →
  returns_under_lock p o r →
  rtc step (o, ts) (set_condition None o, <[i := Return r]> ts).
Proof.
  intros Hl. revert ts.
  induction p as [ | | k IH | k IH | k IH | | | | | k IH];
    cbn [returns_under_lock]; intros ts Hi Hret; try done.
  - load_runs (_state o).
  - load_runs (_result o).
  - load_runs (_exception o).
  - subst k. apply rtc_once.
    eapply (step_thread i o _ ts); [exact Hi|].
    cbn [tstep]. by rewrite bool_decide_eq_true_2.
Qed.

Lemma locked_snapshot_returns (o : Future) :
  returns_under_lock (on_exit locked_snapshot) o (snapshot_of o).
Proof.
  unfold locked_snapshot, snapshot_of. cbn [on_exit returns_under_lock].
  destruct (String.eqb (_state o) "FINISHED");
    cbn [on_exit returns_under_lock]; [done|].
  destruct (py_in (_state o) _); cbn [on_exit returns_under_lock]; done.
Qed.

Lemma run_schedule_steps (sched : list nat) (c c' : config) :
  run_schedule sched c = Some c' → rtc step c c'.
Proof.
  revert c. induction sched as [| i sched IH]; intros [o ts]; cbn [run_schedule].
  { intros [= ->]. apply rtc_refl. }
  cbn [fst snd]. destruct (ts !! i) as [p|] eqn:Hi; [|done].
  destruct (tstep i o p) as [[o' p']|] eqn:Hs; [|done].
  intros Hrun. eapply rtc_l; [|by apply IH]. by econstructor.
Qed.

(** The guard of the discipline can be weakened. *)
Lemma discipline_weaken (g1 g2 : Future → Prop) (p : prog) :
  (∀ o, g1 o → g2 o) →
  (outside_ok g1 p → outside_ok g2 p)
  ∧ (∀ o, inside_ok g1 p o → inside_ok g2 p o).
Proof.
  intros Hg. induction p as [ | | k IH | k IH | k IH | s k IH | v k IH
                            | v k IH | k IH | k IH];
    cbn [outside_ok inside_ok]; split; try done;
    try (intros H x; by apply IH);
    try (intros o H; by apply IH);
    try (intros o [H1 H2]; split; [by apply Hg | by apply IH]).
Qed.

Lemma api_pool_disciplined (o : Future) (ts : list prog) :
  _condition o = None → Forall api_call ts → disciplined lock_only (o, ts).
Proof.
  intros Hl Hts i p Hi. cbn [fst snd] in *.
  unfold thread_ok. rewrite bool_decide_eq_false_2 by congruence.
  apply (discipline_weaken unfinished lock_only); [done|].
  apply api_call_outside. eapply Forall_lookup_1; eauto.
Qed.

(** ** The [with] blocks are atomic *)

Lemma run_tstep (i : nat) (o o' : Future) (p p' : prog) :
  tstep i o p = Some (o', p') → run i p o = run i p' o'.
Proof.
  destruct p; cbn [tstep run]; intros Hs; simplify_eq; try done.
  - destruct (_condition o); by simplify_eq.
  - case_bool_decide; by simplify_eq.
Qed.

Lemma leaves_lock_run (i : nat) (p : prog) (o : Future) :
  leaves_lock p → _condition o = Some i →
  ∃ o', (∀ o1, future_after o1 (run i p o) = o') ∧ _condition o' = None.
Proof.
  revert o. induction p as [ | | k IH | k IH | k IH | s k IH | v k IH
                           | v k IH | k IH | k IH];
    cbn [leaves_lock run]; intros o Hp Hl; try done;
    try (apply IH; [apply Hp | done]); try (by apply IH).
  rewrite bool_decide_eq_true_2 by done.
  destruct k; try done; by exists (set_condition None o).
Qed.

Lemma leaves_lock_tstep (i : nat) (o o' : Future) (p p' : prog) :
  leaves_lock p → _condition o = Some i →
  tstep i o p = Some (o', p') →
  (_condition o' = Some i ∧ leaves_lock p')
  ∨ (_condition o' = None ∧ ((∃ r, p' = Return r) ∨ ∃ e, p' = Raise e)).
Proof.
  intros Hp Hl. destruct p; cbn [leaves_lock tstep] in *; intros Hs;
    simplify_eq; try done; try (left; by split).
  rewrite bool_decide_eq_true_2 in Hs by done. simplify_eq.
  right. split; [done|]. destruct p'; try done; eauto.
Qed.

Lemma resolve_all_app (me : nat) (rs rs' : list resolution) (o : Future) :
  (resolve_all me (rs ++ rs') o).2
  = (resolve_all me rs' (resolve_all me rs o).2).2.
Proof.
  revert o. induction rs as [| r rs IH]; intros o; [done|].
  cbn [app resolve_all]. specialize (IH (future_after o (run me (call r) o))).
  destruct (resolve_all me (rs ++ rs') _) as [outs1 o1].
  destruct (resolve_all me rs _) as [outs2 o2]. cbn [snd] in *.
  rewrite IH. by destruct (resolve_all me rs' o2).
Qed.

(** With the lock free, what a call makes of the future does not depend on
    the thread that makes it. *)
Lemma run_call_thread (i j : nat) (r : resolution) (o : Future) :
  _condition o = None →
  future_after o (run i (call r) o) = future_after o (run j (call r) o)
  ∧ succeeded (run i (call r) o) = succeeded (run j (call r) o).
Proof.
  intros Hl. destruct r as [v | e | ]; cbn [call].
  - rewrite !run_set_result by done. by destruct (py_in _ _).
  - rewrite !run_set_exception by done. by destruct (py_in _ _).
  - rewrite !run_cancel by done. by destruct (py_in _ _).
Qed.

Lemma locked_snapshot_leaves_lock : leaves_lock (on_exit locked_snapshot).
Proof.
  unfold locked_snapshot. cbn [on_exit leaves_lock]. intros s.
  destruct (String.eqb s "FINISHED"); cbn [on_exit leaves_lock]; [done|].
  intros s'. by destruct (py_in s' _).
Qed.

Lemma call_leaves_lock (r : resolution) (k : prog) :
  call r = Acquire k → leaves_lock k.
Proof.
  destruct r as [v | e | ]; cbn [call];
    unfold set_result, set_exception, cancel, with_condition;
    intros [= <-]; cbn [on_exit leaves_lock]; intros s;
    match goal with |- context [if ?b then _ else _] => by destruct b end.
Qed.

(** What taking the lock starts: a whole resolution or a whole locked
    snapshot, which runs as if alone. *)
Lemma acquire_atomic (i : nat) (p0 k : prog) (o : Future) (ts0 : list prog) :
  calls_ok p0 (Acquire k) → p0 ∈ ts0 → _condition o = None →
  let out := run i (Acquire k) o in
  leaves_lock k
  ∧ _condition (future_after o out) = None
  ∧ (succeeded out = true → _state (future_after o out) ∈ terminal_states)
  ∧ (_state o ∈ terminal_states →
       succeeded out = false ∧ future_after o out = o)
  ∧ ∃ rs, future_after o out = (resolve_all 0 rs o).2
      ∧ Forall (λ r, call r ∈ ts0) rs.
Proof.
  intros Hcall Hin Hl out. cbn [calls_ok] in Hcall.
  destruct Hcall as [[Heq [r Hr]] | Heq].
  - subst out. rewrite Heq, Hr.
    destruct (call_outcome i r o Hl) as (Hl' & Hsucc & Hfail).
    split; [|split; [done | split; [done | split; [done|]]]].
    { apply (call_leaves_lock r). congruence. }
    exists [r]. split.
    + cbn [resolve_all snd].
      by destruct (run_call_thread i 0 r o Hl) as [-> _].
    + constructor; [|done]. by rewrite <- Hr.
  - subst out. rewrite Heq, run_with_lock by done.
    cbn [future_after succeeded is_success snapshot_of].
    split; [|split; [done | split; [|split; [|by exists []]]]].
    + unfold _get_snapshot_with_lock, with_condition in Heq.
      simplify_eq. apply locked_snapshot_leaves_lock.
    + unfold snapshot_of, snapshot.
      destruct (String.eqb _ _); [done|]. by destruct (py_in _ _).
    + intros _. split; [|done]. unfold snapshot_of, snapshot.
      destruct (String.eqb _ _); [done|]. by destruct (py_in _ _).
Qed.

Lemma api_call_calls_ok (p0 : prog) : api_call p0 → calls_ok p0 p0.
Proof.
  destruct 1.
  - by right.
  - intros s. destruct (String.eqb s "FINISHED"); cbn [calls_ok]; [done|].
    by right.
  - left. split; [done|]. by exists (SetResult v).
  - left. split; [done|]. by exists (SetException e).
  - left. split; [done|]. by exists Cancel.
Qed.

Lemma atomic_inv_init (o0 : Future) (ts0 : list prog) :
  _condition o0 = None → Forall api_call ts0 → atomic_inv o0 ts0 (o0, ts0).
Proof.
  intros Hl Hapi.
  assert (∀ i, holds o0 i = false) as Hholds.
  { intros i. unfold holds. apply bool_decide_eq_false. congruence. }
  assert (∀ i p, ts0 !! i = Some p → will_succeed o0 i p = false) as Hnone.
  { intros i p Hi. unfold will_succeed. rewrite Hholds.
    pose proof (Forall_lookup_1 _ _ _ _ Hapi Hi) as Hp. by destruct Hp. }
  unfold atomic_inv, settled. cbn [fst snd]. rewrite Hl.
  split; [|split; [done | split; [by exists [] | split]]].
  - intros i p Hi. exists p. split; [done|]. rewrite Hholds. left.
    apply api_call_calls_ok. by eapply Forall_lookup_1.
  - intros i p Hi Hw. rewrite (Hnone i p Hi) in Hw. done.
  - intros i j p q Hi _ Hw. rewrite (Hnone i p Hi) in Hw. done.
Qed.

Lemma will_succeed_outside (o o' : Future) (i : nat) (q : prog) :
  holds o i = false → holds o' i = false →
  will_succeed o' i q = will_succeed o i q.
Proof. unfold will_succeed. by intros -> ->. Qed.

(** A step that leaves the settled future and the standing of every thread
    as they were keeps the invariant. *)
Lemma atomic_inv_quiet (o0 o o' : Future) (ts0 ts : list prog) (j : nat)
    (p p' : prog) :
  atomic_inv o0 ts0 (o, ts) →
  ts !! j = Some p →
  settled (o', <[j := p']> ts) = settled (o, ts) →
  (∀ i, i ≠ j → o' = o ∨ (holds o i = false ∧ holds o' i = false)) →
  (∀ p0, ts0 !! j = Some p0 →
     if holds o' j then leaves_lock p'
     else calls_ok p0 p' ∨ ∃ r, p' = Return r) →
  will_succeed o' j p' = will_succeed o j p →
  atomic_inv o0 ts0 (o', <[j := p']> ts).
Proof.
  intros (Hth & Hlock & Hlin & Hterm & Huniq) Hj Hset Hothers Hshape Hwin.
  cbn [fst snd] in *.
  assert (∀ i q', <[j := p']> ts !! i = Some q' →
            ∃ q, ts !! i = Some q ∧ will_succeed o' i q' = will_succeed o i q
                 ∧ (i ≠ j → q' = q)) as Hback.
  { intros i q' Hi. destruct (decide (i = j)) as [-> | Hij].
    - rewrite list_lookup_insert_eq in Hi by (by eapply lookup_lt_Some).
      simplify_eq. by exists p.
    - rewrite list_lookup_insert_ne in Hi by done. exists q'.
      split; [done|]. split; [|done].
      destruct (Hothers i Hij) as [-> | [H1 H2]]; [done|].
      by apply will_succeed_outside. }
  unfold atomic_inv. cbn [fst snd]. rewrite Hset.
  split; [|split; [done | split; [done | split]]].
  - intros i q' Hi. destruct (Hback i q' Hi) as (q & Hq & _ & Hsame).
    destruct (Hth i q Hq) as (p0 & Hp0 & Hsh). exists p0. split; [done|].
    destruct (decide (i = j)) as [-> | Hij].
    { rewrite list_lookup_insert_eq in Hi by (by eapply lookup_lt_Some).
      simplify_eq. by apply Hshape. }
    rewrite (Hsame Hij).
    destruct (Hothers i Hij) as [-> | [H1 H2]]; [done|].
    by rewrite H1 in Hsh; rewrite H2.
  - intros i q' Hi Hw. destruct (Hback i q' Hi) as (q & Hq & Heq & _).
    rewrite Heq in Hw. by eapply Hterm.
  - intros i1 i2 q1 q2 Hi1 Hi2 Hw1 Hw2.
    destruct (Hback i1 q1 Hi1) as (r1 & Hr1 & Heq1 & _).
    destruct (Hback i2 q2 Hi2) as (r2 & Hr2 & Heq2 & _).
    rewrite Heq1 in Hw1. rewrite Heq2 in Hw2. by eapply Huniq.
Qed.

Lemma holds_other (o : Future) (i j : nat) :
  _condition o = Some j → i ≠ j → holds o i = false.
Proof. intros Hl Hij. apply bool_decide_eq_false. congruence. Qed.

Lemma holds_free (o : Future) (i : nat) :
  _condition o = None → holds o i = false.
Proof. intros Hl. apply bool_decide_eq_false. congruence. Qed.

(** A load outside the lock: nothing changes but the thread itself, which
    goes on to a state that is no success. *)
Ltac load_step o0 ts0 ts j p x Hh Hcalls :=
  match type of Hh with
  | holds ?o j = false =>
      apply (atomic_inv_quiet o0 o o ts0 ts j p); try done;
      [ unfold settled; cbn [fst snd];
        let i := fresh "i" in
        let Hl := fresh "Hl" in
        destruct (_condition o) as [i|] eqn:Hl; [|done];
        destruct (decide (i = j)) as [-> | ?];
        [ unfold holds in Hh; by rewrite bool_decide_eq_true_2 in Hh
        | by rewrite list_lookup_insert_ne ]
      | intros ? _; by left
      | let q0 := fresh "q0" in
        intros q0 ?; rewrite Hh; left;
        match goal with
        | H0 : ts0 !! j = Some ?p0 |- _ =>
            assert (q0 = p0) as -> by congruence
        end;
        apply Hcalls
      | unfold will_succeed; rewrite Hh;
        specialize (Hcalls x);
        match goal with
        | |- match ?q with _ => _ end = _ => by destruct q
        end ]
  end.

Lemma atomic_inv_step (o0 : Future) (ts0 : list prog) (c c' : config) :
  atomic_inv o0 ts0 c → step c c' → atomic_inv o0 ts0 c'.
Proof.
  intros Hinv Hstep. destruct Hstep as [j o o' ts p p' Hj Hs].
  pose proof Hinv as (Hth & Hlock & Hlin & Hterm & Huniq).
  cbn [fst snd] in *.
  destruct (Hth j p Hj) as (p0 & Hp0 & Hshape).
  pose proof (run_tstep _ _ _ _ _ Hs) as Hrun.
  pose proof (lookup_lt_Some _ _ _ Hj) as Hlen.
  destruct (holds o j) eqn:Hh.
  - (* the thread in the [with] block *)
    apply bool_decide_eq_true in Hh.
    destruct (leaves_lock_run j p o Hshape Hh) as (os & Hos & Hosl).
    assert (settled (o, ts) = os) as Hset.
    { unfold settled. cbn [fst snd]. rewrite Hh, Hj. apply Hos. }
    destruct (leaves_lock_tstep j o o' p p' Hshape Hh Hs)
      as [[Hl' Hsh'] | [Hl' Hdone]].
    + apply (atomic_inv_quiet o0 o o' ts0 ts j p p'); try done.
      * rewrite Hset. unfold settled. cbn [fst snd].
        rewrite Hl', list_lookup_insert_eq by done. rewrite <- Hrun.
        apply Hos.
      * intros i Hij. right. split; by eapply holds_other.
      * intros q0 _. unfold holds. by rewrite bool_decide_eq_true_2.
      * unfold will_succeed, holds.
        rewrite !bool_decide_eq_true_2 by done. by rewrite Hrun.
    + assert (os = o') as ->.
      { rewrite <- (Hos o), Hrun.
        by destruct Hdone as [[r ->] | [e ->]]. }
      apply (atomic_inv_quiet o0 o o' ts0 ts j p p'); try done.
      * rewrite Hset. unfold settled. cbn [fst snd]. by rewrite Hl'.
      * intros i Hij. right.
        split; [by eapply holds_other | by apply holds_free].
      * intros q0 _. rewrite holds_free by done.
        destruct Hdone as [[r ->] | [e ->]]; [right; by eauto | by left].
      * unfold will_succeed. rewrite (holds_free o') by done.
        unfold holds. rewrite bool_decide_eq_true_2 by done. rewrite Hrun.
        by destruct Hdone as [[r ->] | [e ->]].
  - (* a thread outside the [with] blocks *)
    destruct Hshape as [Hcalls | [r ->]]; [|done].
    destruct p as [ | | k | k | k | | | | k | ]; cbn [tstep calls_ok] in *;
      simplify_eq; try done.
    + load_step o0 ts0 ts j (LoadState k) (_state o') Hh Hcalls.
    + load_step o0 ts0 ts j (LoadResult k) (_result o') Hh Hcalls.
    + load_step o0 ts0 ts j (LoadException k) (_exception o') Hh Hcalls.
    + (* the lock is taken: a whole call happens *)
      destruct (_condition o) eqn:Hl; simplify_eq.
      assert (p0 ∈ ts0) as Hin by (by eapply list_elem_of_lookup_2).
      destruct (acquire_atomic j p0 p' o ts0 Hcalls Hin Hl)
        as (Hleaves & Hl' & Hsucc & Hfail & rs' & Hrs' & Hpool).
      cbn [run] in Hl', Hsucc, Hfail, Hrs'. rewrite Hl in Hl', Hsucc, Hfail, Hrs'.
      set (o1 := set_condition (Some j) o) in *.
      assert (settled (o, ts) = o) as Hset.
      { unfold settled. cbn [fst snd]. by rewrite Hl. }
      assert (_condition o1 = Some j) as Hl1 by done.
      destruct (leaves_lock_run j p' o1 Hleaves Hl1) as (os & Hos & Hosl).
      assert (settled (o1, <[j := p']> ts) = os) as Hset'.
      { unfold settled. cbn [fst snd].
        rewrite Hl1, list_lookup_insert_eq by done. apply Hos. }
      rewrite (Hos o) in Hl', Hsucc, Hfail, Hrs'.
      rewrite Hset in Hlock, Hlin, Hterm.
      assert (∀ i q, i ≠ j → will_succeed o1 i q = will_succeed o i q) as Hsame.
      { intros i q Hij. apply will_succeed_outside;
          [by apply holds_free | by eapply holds_other]. }
      assert (will_succeed o1 j p' = succeeded (run j p' o1)) as Hwj.
      { unfold will_succeed, holds. by rewrite bool_decide_eq_true_2. }
      unfold atomic_inv. cbn [fst snd]. rewrite Hset'.
      split; [|split; [done | split; [|split]]].
      * intros i q Hi. destruct (decide (i = j)) as [-> | Hij].
        { rewrite list_lookup_insert_eq in Hi by done. simplify_eq.
          exists p0. split; [done|]. unfold holds.
          by rewrite bool_decide_eq_true_2. }
        rewrite list_lookup_insert_ne in Hi by done.
        destruct (Hth i q Hi) as (q0 & Hq0 & Hsh). exists q0. split; [done|].
        rewrite (holds_free o i Hl) in Hsh.
        by rewrite (holds_other o1 i j Hl1 Hij).
      * destruct Hlin as (rs & Hrs & Hrspool). exists (rs ++ rs'). split.
        { by rewrite resolve_all_app, <- Hrs. }
        by apply Forall_app.
      * intros i q Hi Hw. destruct (decide (i = j)) as [-> | Hij].
        { rewrite list_lookup_insert_eq in Hi by done. simplify_eq.
          rewrite Hwj in Hw. by apply Hsucc. }
        rewrite list_lookup_insert_ne in Hi by done.
        rewrite Hsame in Hw by done.
        pose proof (Hterm i q Hi Hw) as Ht.
        destruct (Hfail Ht) as [_ ->]. done.
      * assert (∀ i q, i ≠ j → ts !! i = Some q →
                  will_succeed o i q = true →
                  succeeded (run j p' o1) = false) as Hlose.
        { intros i q Hij Hi Hw. by destruct (Hfail (Hterm i q Hi Hw)). }
        intros i1 i2 q1 q2 Hi1 Hi2 Hw1 Hw2.
        destruct (decide (i1 = j)) as [-> | H1];
          destruct (decide (i2 = j)) as [-> | H2]; try done.
        { rewrite list_lookup_insert_eq in Hi1 by done.
          rewrite list_lookup_insert_ne in Hi2 by done. simplify_eq.
          rewrite Hsame in Hw2 by done. rewrite Hwj in Hw1.
          rewrite (Hlose i2 q2 H2 Hi2 Hw2) in Hw1. done. }
        { rewrite list_lookup_insert_eq in Hi2 by done.
          rewrite list_lookup_insert_ne in Hi1 by done. simplify_eq.
          rewrite Hsame in Hw1 by done. rewrite Hwj in Hw2.
          rewrite (Hlose i1 q1 H1 Hi1 Hw1) in Hw2. done. }
        rewrite list_lookup_insert_ne in Hi1, Hi2 by done.
        rewrite Hsame in Hw1, Hw2 by done. by eapply Huniq.
Qed.

Lemma atomic_inv_steps (o0 : Future) (ts0 : list prog) (c c' : config) :
  atomic_inv o0 ts0 c → rtc step c c' → atomic_inv o0 ts0 c'.
Proof. intros Hinv Hs. induction Hs; eauto using atomic_inv_step. Qed.

(** At most one thread ever returns a success. *)
Lemma atomic_inv_one_success (o0 o : Future) (ts0 ts : list prog)
    (i j : nat) (ri rj : value) :
  atomic_inv o0 ts0 (o, ts) →
  ts !! i = Some (Return ri) → ts !! j = Some (Return rj) →
  is_success ri = true → is_success rj = true → i = j.
Proof.
  intros (Hth & _ & _ & _ & Huniq) Hi Hj Hri Hrj. cbn [fst snd] in *.
  assert (∀ k r, ts !! k = Some (Return r) → is_success r = true →
            will_succeed o k (Return r) = true) as Hwin.
  { intros k r Hk Hr. destruct (Hth k _ Hk) as (p0 & _ & Hsh).
    unfold will_succeed. by destruct (holds o k). }
  eapply Huniq; eauto.
Qed.

(** The thread in the [with] block does not touch a finished payload. *)
Lemma run_frozen (i : nat) (p : prog) (o : Future) :
  inside_ok unfinished p o → leaves_lock p → _condition o = Some i →
  frozen o (future_after o (run i p o)).
Proof.
  intros Hin Hleaves Hl.
  destruct (decide (_state o = "FINISHED")) as [Hfin | Hfin];
    [|by intros ?].
  revert o Hin Hl Hfin.
  induction p as [ | | k IH | k IH | k IH | s k IH | v k IH
                 | v k IH | k IH | k IH];
    cbn [leaves_lock inside_ok run] in *; intros o Hin Hl Hfin; try done;
    try (by apply IH); try (by destruct Hin as [Hg _]).
  rewrite bool_decide_eq_true_2 by done. by destruct k.
Qed.

(** What resolutions run one after the other leave in a finished future:
    the payload it had, or the whole payload of one of them. *)
Lemma resolve_all_finished (me : nat) (rs : list resolution) (o0 : Future) :
  _condition o0 = None →
  let o := (resolve_all me rs o0).2 in
  _state o = "FINISHED" →
  (_state o0 = "FINISHED" ∧ _result o = _result o0
   ∧ _exception o = _exception o0)
  ∨ (∃ v, SetResult v ∈ rs ∧ _result o = v ∧ _exception o = _exception o0)
  ∨ (∃ e, SetException e ∈ rs ∧ _exception o = e ∧ _result o = _result o0).
Proof.
  revert o0. induction rs as [| r rs IH]; intros o0 Hl o Hfin; subst o.
  { left. done. }
  cbn [resolve_all] in *.
  destruct (call_outcome me r o0 Hl) as (Hl' & Hsucc & Hfail).
  destruct (resolve_all me rs (future_after o0 (run me (call r) o0)))
    as [outs o] eqn:Hrs. cbn [snd] in *.
  assert (o = (resolve_all me rs (future_after o0 (run me (call r) o0))).2)
    as Ho by (by rewrite Hrs).
  destruct (decide (_state o0 ∈ terminal_states)) as [Ht | Ht].
  { destruct (Hfail Ht) as [_ Hsame]. rewrite Hsame in Ho.
    specialize (IH o0 Hl). cbn zeta in IH. rewrite <- Ho in IH.
    destruct (IH Hfin) as [H1 | [(v & Hv & H2) | (e & He & H2)]].
    - by left.
    - right. left. exists v. split; [by right | done].
    - right. right. exists e. split; [by right | done]. }
  apply in_terminal_states_false in Ht.
  destruct r as [v | e | ]; cbn [call] in *.
  - rewrite run_set_result, Ht in Ho, Hl' by done. cbn [future_after] in *.
    destruct (resolve_all_terminal me rs
                (mkFuture "FINISHED" v (_exception o0) None (_waiters o0)))
      as [_ Hsame]; [done | by apply in_terminal_states|].
    rewrite Hsame in Ho. subst o. right. left. exists v.
    split; [by left | done].
  - rewrite run_set_exception, Ht in Ho, Hl' by done. cbn [future_after] in *.
    destruct (resolve_all_terminal me rs
                (mkFuture "FINISHED" (_result o0) e None (_waiters o0)))
      as [_ Hsame]; [done | by apply in_terminal_states|].
    rewrite Hsame in Ho. subst o. right. right. exists e.
    split; [by left | done].
  - rewrite run_cancel in Ho, Hl' by done.
    destruct (py_in (_state o0) ["PENDING"; "RUNNING"]); cbn [future_after] in *.
    + destruct (resolve_all_terminal me rs
                  (mkFuture "CANCELLED" (_result o0) (_exception o0) None
                     (_waiters o0)))
        as [_ Hsame]; [done | by apply in_terminal_states|].
      rewrite Hsame in Ho. subst o. done.
    + specialize (IH o0 Hl). cbn zeta in IH. rewrite <- Ho in IH.
      destruct (IH Hfin) as [H1 | [(v & Hv & H2) | (e & He & H2)]].
      * by left.
      * right. left. exists v. split; [by right | done].
      * right. right. exists e. split; [by right | done].
Qed.

(** In any interleaving the payload of a finished future is the one it
    started with or the whole payload of one resolution of the pool. *)
Lemma finished_payload_complete (o0 o : Future) (ts0 ts : list prog) :
  _condition o0 = None → Forall api_call ts0 →
  rtc step (o0, ts0) (o, ts) →
  _state o = "FINISHED" →
  (_state o0 = "FINISHED" ∧ _result o = _result o0
   ∧ _exception o = _exception o0)
  ∨ (∃ v, set_result v ∈ ts0 ∧ _result o = v
          ∧ _exception o = _exception o0)
  ∨ (∃ e, set_exception e ∈ ts0 ∧ _exception o = e
          ∧ _result o = _result o0).
Proof.
  intros Hl Hapi Hsteps Hfin.
  pose proof (atomic_inv_steps _ _ _ _ (atomic_inv_init o0 ts0 Hl Hapi) Hsteps)
    as (Hth & _ & (rs & Hrs & Hpool) & _ & _).
  destruct (publish_once_steps _ _ (api_pool_publish_once o0 ts0 Hl Hapi) Hsteps)
    as [[Hd _] _].
  cbn [fst snd] in *.
  assert (frozen o (settled (o, ts))) as Hfrozen.
  { unfold settled. cbn [fst snd].
    destruct (_condition o) as [i|] eqn:Hli; [|apply frozen_refl].
    destruct (ts !! i) as [p|] eqn:Hi; [|apply frozen_refl].
    destruct (Hth i p Hi) as (p0 & _ & Hsh).
    pose proof (Hd i p Hi) as Hok. cbn [fst snd] in Hok.
    unfold thread_ok in Hok. unfold holds in Hsh.
    rewrite bool_decide_eq_true_2 in Hok, Hsh by done.
    by apply run_frozen. }
  destruct (Hfrozen Hfin) as (Hs & Hr & He). rewrite Hrs in Hs, Hr, He.
  rewrite Forall_forall in Hpool.
  destruct (resolve_all_finished 0 rs o0 Hl Hs)
    as [(H1 & H2 & H3) | [(v & Hv & H2 & H3) | (e & Hv & H2 & H3)]].
  - left. split; [done|]. split; congruence.
  - right. left. exists v. split; [exact (Hpool _ Hv)|]. split; congruence.
  - right. right. exists e. split; [exact (Hpool _ Hv)|]. split; congruence.
Qed.

(** ** The snapshot functions, called with the lock free *)

(** C1: with the lock free, both [_get_snapshot_with_lock] and
    [_get_snapshot_lockless_finished] return [(True, False, result,
    exception)] on a FINISHED future, [(True, True, None, None)] on a
    CANCELLED or CANCELLED_AND_NOTIFIED one, and [(False, False, None,
    None)] in every other state. *)
Theorem read_snapshot_by_state (me : nat) (o : Future) :
  _condition o = None →
  (_state o = "FINISHED" →
     run me _get_snapshot_with_lock o
       = Returned (snapshot true false (_result o) (_exception o)) o
     ∧ run me _get_snapshot_lockless_finished o
       = Returned (snapshot true false (_result o) (_exception o)) o)
  ∧ (_state o = "CANCELLED" ∨ _state o = "CANCELLED_AND_NOTIFIED" →
     run me _get_snapshot_with_lock o
       = Returned (snapshot true true VNone VNone) o
     ∧ run me _get_snapshot_lockless_finished o
       = Returned (snapshot true true VNone VNone) o)
  ∧ (_state o ∉ terminal_states →
     run me _get_snapshot_with_lock o
       = Returned (snapshot false false VNone VNone) o
     ∧ run me _get_snapshot_lockless_finished o
       = Returned (snapshot false false VNone VNone) o).
Proof.
  intros Hl. rewrite run_with_lock, run_lockless by done.
  split_and!.
  - intros Hs. by rewrite snapshot_of_finished.
  - intros Hs. by rewrite snapshot_of_cancelled.
  - intros Hs. by rewrite snapshot_of_other.
Qed.

Lemma read_snapshot_by_state_witness :
  run 0 _get_snapshot_with_lock (mkFuture "FINISHED" (VInt 42) VNone None [])
    = Returned (snapshot true false (VInt 42) VNone)
        (mkFuture "FINISHED" (VInt 42) VNone None [])
  ∧ run 0 _get_snapshot_lockless_finished
      (mkFuture "FINISHED" (VInt 42) VNone None [])
    = Returned (snapshot true false (VInt 42) VNone)
        (mkFuture "FINISHED" (VInt 42) VNone None []).
Proof.
  apply (read_snapshot_by_state 0
           (mkFuture "FINISHED" (VInt 42) VNone None [])); reflexivity.
Defined.

(** C2: on a future that no other thread holds or changes, the two
    implementations return the same tuple and leave the same future. *)
Theorem snapshot_implementations_agree (me : nat) (o : Future) :
  _condition o = None →
  run me _get_snapshot_lockless_finished o
  = run me _get_snapshot_with_lock o.
Proof. intros Hl. by rewrite run_with_lock, run_lockless. Qed.

Lemma snapshot_implementations_agree_witness :
  run 0 _get_snapshot_lockless_finished new_future
  = run 0 _get_snapshot_with_lock new_future.
Proof. apply (snapshot_implementations_agree 0 new_future). reflexivity. Defined.

(** C9: a snapshot call is a pure read: whatever the call does, the future
    it leaves is the future it found, field by field; with the lock free the
    call does return. *)
Theorem snapshots_are_pure_reads (me : nat) (o : Future) :
  future_after o (run me _get_snapshot_with_lock o) = o
  ∧ future_after o (run me _get_snapshot_lockless_finished o) = o
  ∧ (_condition o = None →
     ∃ r r', run me _get_snapshot_with_lock o = Returned r o
             ∧ run me _get_snapshot_lockless_finished o = Returned r' o).
Proof.
  assert (future_after o (run me _get_snapshot_with_lock o) = o) as Hw.
  { destruct (_condition o) as [j|] eqn:Hl.
    - unfold _get_snapshot_with_lock, with_condition. cbn [run].
      by rewrite Hl.
    - by rewrite run_with_lock. }
  split_and!; [done | |].
  - cbn [_get_snapshot_lockless_finished run].
    destruct (String.eqb (_state o) "FINISHED"); [done|]. exact Hw.
  - intros Hl. rewrite run_with_lock, run_lockless by done. eauto.
Qed.

Lemma snapshots_are_pure_reads_witness :
  ∃ r r', run 0 _get_snapshot_with_lock new_future = Returned r new_future
          ∧ run 0 _get_snapshot_lockless_finished new_future
            = Returned r' new_future.
Proof.
  apply (snapshots_are_pure_reads 0 new_future). reflexivity.
Defined.

(** C10: both functions are total over the state: with the lock free, for
    every string held in [_state] each returns a 4-tuple of two booleans and
    two values, and a state that is none of FINISHED, CANCELLED,
    CANCELLED_AND_NOTIFIED falls to the last branch, [(False, False, None,
    None)]. *)
Theorem snapshots_total_over_state (me : nat) (o : Future) :
  _condition o = None →
  (∃ done cancelled res exc,
      run me _get_snapshot_with_lock o
        = Returned (snapshot done cancelled res exc) o
      ∧ run me _get_snapshot_lockless_finished o
        = Returned (snapshot done cancelled res exc) o)
  ∧ (_state o ∉ terminal_states →
      run me _get_snapshot_with_lock o
        = Returned (snapshot false false VNone VNone) o
      ∧ run me _get_snapshot_lockless_finished o
        = Returned (snapshot false false VNone VNone) o).
Proof.
  intros Hl. rewrite run_with_lock, run_lockless by done. split.
  - unfold snapshot_of.
    destruct (String.eqb (_state o) "FINISHED"); [by eauto 6|].
    destruct (py_in (_state o) _); by eauto 6.
  - intros Hs. by rewrite snapshot_of_other.
Qed.

Lemma snapshots_total_over_state_witness :
  run 0 _get_snapshot_with_lock (mkFuture "HALF_DONE" (VInt 1) VNone None [])
    = Returned (snapshot false false VNone VNone)
        (mkFuture "HALF_DONE" (VInt 1) VNone None [])
  ∧ run 0 _get_snapshot_lockless_finished
      (mkFuture "HALF_DONE" (VInt 1) VNone None [])
    = Returned (snapshot false false VNone VNone)
        (mkFuture "HALF_DONE" (VInt 1) VNone None []).
Proof.
  apply (snapshots_total_over_state 0
           (mkFuture "HALF_DONE" (VInt 1) VNone None [])); [reflexivity|].
  unfold terminal_states. cbn [_state].
  intros H. repeat (apply elem_of_cons in H as [H | H]; [discriminate H|]).
  by apply elem_of_nil in H.
Defined.

(** C5: on a future in a terminal state [set_result] and [set_exception]
    raise, [cancel] returns [False], and each leaves the future as it was;
    of any sequence of attempts at most one succeeds, and after it every
    attempt fails and changes nothing; the same holds when the attempts and
    snapshots run as interleaved threads: at most one thread returns a
    success, and the future settles as some of the attempts, run one after
    the other, leave it. *)
Theorem resolution_succeeds_at_most_once (me : nat) (o : Future) :
  _condition o = None →
  (_state o ∈ terminal_states →
     (∀ v, run me (set_result v) o
           = Raised (InvalidStateError (_state o)) o)
     ∧ (∀ e, run me (set_exception e) o
             = Raised (InvalidStateError (_state o)) o)
     ∧ run me cancel o = Returned (VBool false) o)
  ∧ (∀ rs, successes (resolve_all me rs o).1 ≤ 1)
  ∧ (∀ r rs, succeeded (run me (call r) o) = true →
       let o' := future_after o (run me (call r) o) in
       successes (resolve_all me rs o').1 = 0
       ∧ (resolve_all me rs o').2 = o')
  ∧ (∀ ts0 o1 ts1, Forall api_call ts0 → rtc step (o, ts0) (o1, ts1) →
       (∀ i j ri rj,
          ts1 !! i = Some (Return ri) → ts1 !! j = Some (Return rj) →
          is_success ri = true → is_success rj = true → i = j)
       ∧ ∃ rs, settled (o1, ts1) = (resolve_all 0 rs o).2
           ∧ Forall (λ r, call r ∈ ts0) rs).
Proof.
  intros Hl. split_and!.
  - intros Ht. split_and!.
    + intros v. rewrite run_set_result by done.
      by rewrite (proj2 (in_terminal_states _) Ht).
    + intros e. rewrite run_set_exception by done.
      by rewrite (proj2 (in_terminal_states _) Ht).
    + rewrite run_cancel by done.
      by rewrite (terminal_not_cancellable _ Ht).
  - intros rs. by apply resolve_all_once.
  - intros r rs Hs o'.
    destruct (call_outcome me r o Hl) as (Hl' & Hsucc & _).
    by apply resolve_all_terminal; [|apply Hsucc].
  - intros ts0 o1 ts1 Hapi Hsteps.
    pose proof (atomic_inv_steps _ _ _ _ (atomic_inv_init o ts0 Hl Hapi) Hsteps)
      as Hinv.
    split.
    + intros i j ri rj. by apply (atomic_inv_one_success o o1 ts0 ts1).
    + by destruct Hinv as (_ & _ & Hlin & _).
Qed.

Lemma resolution_succeeds_at_most_once_witness :
  successes
    (resolve_all 0 [SetResult (VInt 42); SetResult (VInt 99); Cancel]
       new_future).1 ≤ 1.
Proof.
  apply (resolution_succeeds_at_most_once 0 new_future). reflexivity.
Defined.

(** ** The snapshot functions among other threads *)

(** C3: a lockless snapshot whose fast check does not see FINISHED goes on
    to [with self._condition]; once it has the lock its first action loads
    the state again, it cannot be blocked, and what it returns is the
    snapshot of the future as it was when the lock was taken: if the state
    became FINISHED in between, [(True, False, result, exception)]. *)
Theorem lockless_rechecks_under_lock
    (i : nat) (o0 o1 : Future) (ts0 ts1 : list prog) :
  disciplined lock_only (o0, ts0) →
  ts0 !! i = Some _get_snapshot_lockless_finished →
  _state o0 ≠ "FINISHED" →
  rtc step (o0, <[i := with_condition locked_snapshot]> ts0) (o1, ts1) →
  ts1 !! i = Some (with_condition locked_snapshot) →
  _condition o1 = None →
  let c1 := (set_condition (Some i) o1, <[i := on_exit locked_snapshot]> ts1) in
  step (o0, ts0) (o0, <[i := with_condition locked_snapshot]> ts0)
  ∧ step (o1, ts1) c1
  ∧ (∃ k, on_exit locked_snapshot = LoadState k)
  ∧ (∀ o2 ts2 r, rtc step c1 (o2, ts2) → ts2 !! i = Some (Return r) →
       r = snapshot_of o1)
  ∧ (∃ o2 ts2, rtc step c1 (o2, ts2)
       ∧ ts2 !! i = Some (Return (snapshot_of o1)))
  ∧ (_state o1 = "FINISHED" →
       snapshot_of o1 = snapshot true false (_result o1) (_exception o1)).
Proof.
  intros Hd Hi Hs Hsteps Hi1 Hl1 c1.
  assert (step (o0, ts0) (o0, <[i := with_condition locked_snapshot]> ts0))
    as Hfast.
  { eapply step_thread; [exact Hi|].
    cbn [_get_snapshot_lockless_finished tstep].
    by destruct (String.eqb_spec (_state o0) "FINISHED"). }
  assert (step (o1, ts1) c1) as Hacq.
  { eapply step_thread; [exact Hi1|].
    unfold with_condition. cbn [tstep]. by rewrite Hl1. }
  assert (disciplined lock_only c1) as Hd1.
  { eapply disciplined_step; [|exact Hacq].
    eapply disciplined_steps; [|exact Hsteps].
    eapply disciplined_step; [exact Hd | exact Hfast]. }
  assert (snapshot_pending i (snapshot_of o1) c1) as Hpend.
  { split; [done|]. left. cbn [fst snd c1]. split; [done|].
    exists (on_exit locked_snapshot). split.
    - apply list_lookup_insert_eq. by eapply lookup_lt_Some.
    - apply (locked_snapshot_returns (set_condition (Some i) o1)). }
  split_and!; [done | done | by eexists | | |].
  - intros o2 ts2 r Hsteps2 Hi2.
    destruct (snapshot_pending_steps _ _ _ _ Hpend Hsteps2)
      as [_ [(_ & q & Hq & Hret) | Hdone]]; cbn [fst snd] in *.
    + assert (q = Return r) as -> by congruence. done.
    + congruence.
  - eexists _, _. split.
    + apply (returns_under_lock_runs i (on_exit locked_snapshot)
               (set_condition (Some i) o1) _ (snapshot_of o1)).
      * done.
      * apply list_lookup_insert_eq. by eapply lookup_lt_Some.
      * apply (locked_snapshot_returns (set_condition (Some i) o1)).
    + apply list_lookup_insert_eq. rewrite length_insert.
      by eapply lookup_lt_Some.
  - apply snapshot_of_finished.
Qed.

(** Thread 0 snapshots a pending future; thread 1 resolves it with 42
    after the fast check of thread 0 and before thread 0 takes the lock. *)
Lemma lockless_rechecks_under_lock_witness :
  let o1 := mkFuture "FINISHED" (VInt 42) VNone None [] in
  let ts1 := [with_condition locked_snapshot; Return VNone] in
  let c1 := (set_condition (Some 0) o1, <[0 := on_exit locked_snapshot]> ts1) in
  rtc step (new_future, [with_condition locked_snapshot; set_result (VInt 42)])
           (o1, ts1)
  ∧ (∀ o2 ts2 r, rtc step c1 (o2, ts2) → ts2 !! 0 = Some (Return r) →
       r = snapshot true false (VInt 42) VNone)
  ∧ (∃ o2 ts2, rtc step c1 (o2, ts2)
       ∧ ts2 !! 0 = Some (Return (snapshot true false (VInt 42) VNone))).
Proof.
  intros o1 ts1 c1.
  assert (rtc step
            (new_future, [with_condition locked_snapshot; set_result (VInt 42)])
            (o1, ts1)) as Hrace.
  { apply (run_schedule_steps [1; 1; 1; 1; 1]). reflexivity. }
  split; [exact Hrace|].
  assert (disciplined lock_only
            (new_future, [_get_snapshot_lockless_finished; set_result (VInt 42)]))
    as Hd.
  { apply api_pool_disciplined; [reflexivity|].
    repeat constructor. }
  destruct (lockless_rechecks_under_lock 0 new_future o1
              [_get_snapshot_lockless_finished; set_result (VInt 42)] ts1
              Hd eq_refl ltac:(discriminate) Hrace eq_refl eq_refl)
    as (_ & _ & _ & Hret & Hruns & _).
  split; [exact Hret | exact Hruns].
Defined.

(** A thread that has returned takes no further step. *)
Lemma returned_stays (i : nat) (r : value) (c c' : config) :
  rtc step c c' → c.2 !! i = Some (Return r) → c'.2 !! i = Some (Return r).
Proof.
  induction 1 as [c | c c' c'' Hstep Hrest IH]; [done|].
  intros Hi. apply IH.
  destruct Hstep as [j o o' ts p p' Hj Hs]. cbn [snd] in *.
  destruct (decide (j = i)) as [-> | Hji].
  - assert (p = Return r) as -> by congruence. discriminate Hs.
  - by rewrite list_lookup_insert_ne.
Qed.

(** C4: whatever the interleaving of snapshot calls, [set_result],
    [set_exception] and [cancel] on one future, a call that has returned
    [(True, False, v, e)] has returned the payload the finished future
    holds, and that payload never changes afterwards: every snapshot
    returned later as finished carries the same [v] and [e]; the payload
    of a finished future is whole: the one the future started with, or the
    result of one [set_result] next to the exception the future started
    with, or the exception of one [set_exception] next to the result the
    future started with. *)
Theorem finished_payload_is_final
    (o0 o1 o2 : Future) (ts0 ts1 ts2 : list prog) :
  _condition o0 = None →
  Forall api_call ts0 →
  rtc step (o0, ts0) (o1, ts1) →
  rtc step (o1, ts1) (o2, ts2) →
  (∀ i v e, ts1 !! i = Some (Return (snapshot true false v e)) →
     (_state o1 = "FINISHED" ∧ _result o1 = v ∧ _exception o1 = e)
     ∧ (_state o2 = "FINISHED" ∧ _result o2 = v ∧ _exception o2 = e)
     ∧ ts2 !! i = Some (Return (snapshot true false v e))
     ∧ ∀ j v' e', ts2 !! j = Some (Return (snapshot true false v' e')) →
         v' = v ∧ e' = e)
  ∧ (_state o1 = "FINISHED" →
     _state o2 = "FINISHED" ∧ _result o2 = _result o1
     ∧ _exception o2 = _exception o1)
  ∧ (_state o1 = "FINISHED" →
     (_state o0 = "FINISHED" ∧ _result o1 = _result o0
      ∧ _exception o1 = _exception o0)
     ∨ (∃ v, set_result v ∈ ts0 ∧ _result o1 = v
             ∧ _exception o1 = _exception o0)
     ∨ (∃ e, set_exception e ∈ ts0 ∧ _exception o1 = e
             ∧ _result o1 = _result o0)).
Proof.
  intros Hl Hapi H01 H12.
  pose proof (api_pool_publish_once o0 ts0 Hl Hapi) as Hinv0.
  destruct (publish_once_steps _ _ Hinv0 H01) as [Hinv1 _].
  destruct (publish_once_steps _ _ Hinv1 H12) as [Hinv2 Hf12].
  cbn [fst snd] in *.
  split; [|split; [exact Hf12|]].
  - intros i v e Hi.
    destruct Hinv1 as [_ Hr1]. destruct Hinv2 as [_ Hr2]. cbn [fst snd] in *.
    pose proof (Hr1 i _ Hi v e eq_refl) as (Hs1 & Hv1 & He1).
    destruct (Hf12 Hs1) as (Hs2 & Hv2 & He2).
    split_and!; try done; try congruence.
    + exact (returned_stays i _ _ _ H12 Hi).
    + intros j v' e' Hj.
      pose proof (Hr2 j _ Hj v' e' eq_refl) as (_ & Hv' & He').
      split; congruence.
  - by apply (finished_payload_complete o0 o1 ts0 ts1).
Qed.

(** Thread 1 resolves a new future with 42; thread 0 makes its fast check
    after thread 1 has stored the result and before it has stored the state,
    and falls back to the lock; thread 2 snapshots afterwards. *)
Lemma finished_payload_is_final_witness :
  let ts0 := [_get_snapshot_lockless_finished; set_result (VInt 42);
              _get_snapshot_with_lock] in
  let o1 := mkFuture "FINISHED" (VInt 42) VNone None [] in
  let ts1 := [Return (snapshot true false (VInt 42) VNone); Return VNone;
              _get_snapshot_with_lock] in
  let ts2 := [Return (snapshot true false (VInt 42) VNone); Return VNone;
              Return (snapshot true false (VInt 42) VNone)] in
  rtc step (new_future, ts0) (o1, ts1)
  ∧ rtc step (o1, ts1) (o1, ts2)
  ∧ ∀ j v' e', ts2 !! j = Some (Return (snapshot true false v' e')) →
      v' = VInt 42 ∧ e' = VNone.
Proof.
  intros ts0 o1 ts1 ts2.
  assert (rtc step (new_future, ts0) (o1, ts1)) as H01.
  { apply (run_schedule_steps [1; 1; 1; 0; 1; 1; 0; 0; 0; 0; 0]).
    reflexivity. }
  assert (rtc step (o1, ts1) (o1, ts2)) as H12.
  { apply (run_schedule_steps [2; 2; 2; 2; 2]). reflexivity. }
  split_and!; [exact H01 | exact H12 |].
  assert (Forall api_call ts0) as Hapi by (repeat constructor).
  destruct (finished_payload_is_final new_future o1 o1 ts0 ts1 ts2
              eq_refl Hapi H01 H12) as [Hret _].
  destruct (Hret 0 (VInt 42) VNone eq_refl) as (_ & _ & _ & Hsame).
  exact Hsame.
Defined.

(** Scenario C: a pending future reads as not done; after [set_result(42)]
    it reads [(True, False, 42, None)]; [set_result(99)] then raises and
    the snapshot stays. *)
Example scenario_C :
  run 0 _get_snapshot_lockless_finished new_future
    = Returned (snapshot false false VNone VNone) new_future
  ∧ let o1 := future_after new_future (run 0 (set_result (VInt 42)) new_future) in
    run 0 _get_snapshot_lockless_finished o1
      = Returned (snapshot true false (VInt 42) VNone) o1
    ∧ run 0 (set_result (VInt 99)) o1
      = Raised (InvalidStateError "FINISHED") o1
    ∧ run 0 _get_snapshot_with_lock o1
      = Returned (snapshot true false (VInt 42) VNone) o1.
Proof. repeat split. Qed.

(** Scenario D: [cancel] succeeds on a pending future; [set_result] then
    raises and the snapshot is [(True, True, None, None)]. *)
Example scenario_D :
  run 0 cancel new_future
    = Returned (VBool true) (mkFuture "CANCELLED" VNone VNone None [])
  ∧ let o1 := mkFuture "CANCELLED" VNone VNone None [] in
    run 0 (set_result (VInt 1)) o1 = Raised (InvalidStateError "CANCELLED") o1
    ∧ run 0 _get_snapshot_lockless_finished o1
      = Returned (snapshot true true VNone VNone) o1.
Proof. repeat split. Qed.

(** * The heap *)

(** ** Parents and children *)

Lemma parent_children (c : nat) :
  0 < c → c = 2 * parent c + 1 ∨ c = 2 * parent c + 2.
Proof.
  intros Hc. unfold parent.
  pose proof (Nat.div_mod_eq (c - 1) 2) as Hd.
  pose proof (Nat.mod_upper_bound (c - 1) 2) as Hm. lia.
Qed.

Lemma parent_lt (c : nat) : 0 < c → parent c < c.
Proof. intros Hc. destruct (parent_children c Hc); lia. Qed.

Lemma parent_left (p : nat) : parent (2 * p + 1) = p.
Proof. destruct (parent_children (2 * p + 1)); lia. Qed.

Lemma parent_right (p : nat) : parent (2 * p + 2) = p.
Proof. destruct (parent_children (2 * p + 2)); lia. Qed.

(** ** Writing into a list *)

Lemma insert_perm_cons {A : Type} (l : list A) (j : nat) (b x : A) :
  l !! j = Some b → b :: <[j := x]> l ≡ₚ x :: l.
Proof.
  revert j. induction l as [| c t IH]; intros [| j] Hj; simplify_eq/=.
  - apply perm_swap.
  - rewrite perm_swap. rewrite (IH j Hj). apply perm_swap.
Qed.

Lemma insert_swap_perm {A : Type} (l : list A) (i j : nat) (a b : A) :
  l !! i = Some a → l !! j = Some b → <[i := b]> (<[j := a]> l) ≡ₚ l.
Proof.
  revert i j. induction l as [| x t IH]; intros [| i] [| j] Hi Hj;
    simplify_eq/=; try done.
  - by apply insert_perm_cons.
  - by apply insert_perm_cons.
  - f_equiv. by apply IH.
Qed.

(** Moving the hole: the item at [q] is copied to [p], and [x] will go to
    [q] instead of [p]. *)
Lemma move_hole_perm {A : Type} (l : list A) (p q : nat) (x y : A) :
  p ≠ q → p < length l → l !! q = Some y →
  <[q := x]> (<[p := y]> l) ≡ₚ <[p := x]> l.
Proof.
  intros Hpq Hp Hq.
  assert (<[q := x]> (<[p := y]> l)
          = <[p := y]> (<[q := x]> (<[p := x]> l))) as ->.
  { rewrite (list_insert_insert_ne _ p q) by done.
    by rewrite list_insert_insert_eq. }
  apply insert_swap_perm.
  - by apply list_lookup_insert_eq.
  - by rewrite list_lookup_insert_ne.
Qed.

(** ** Sifting *)

Section heapq_facts.
Context {A : Type} `{LtOrder A}.
Implicit Types (heap : list A) (pos : nat) (newitem : A).

Lemma lt_irrefl (a : A) : py_lt a a = false.
Proof.
  destruct (py_lt a a) eqn:E; [|done].
  pose proof (lt_asym a a E). congruence.
Qed.

Lemma hole_ok_insert heap pos (x : A) :
  hole_ok heap pos → hole_ok (<[pos := x]> heap) pos.
Proof.
  intros [Ha Hb]. split.
  - intros i a b Hi Hne Hpne Hia Hib.
    rewrite list_lookup_insert_ne in Hia, Hib by done. eauto.
  - intros c a z Hpos Hc Hpc Hca Hz.
    pose proof (parent_lt c Hc). pose proof (parent_lt pos Hpos).
    rewrite list_lookup_insert_ne in Hca, Hz by lia. eauto.
Qed.

Lemma is_heap_hole_ok heap pos : is_heap heap → hole_ok heap pos.
Proof.
  intros Hh. split.
  - intros i x y Hi _ _ Hx Hy. by eapply Hh.
  - intros c x z Hpos Hc Hpc Hx Hz.
    destruct (heap !! pos) as [y|] eqn:Hy.
    + eapply lt_negtrans; [eapply (Hh pos) | eapply (Hh c)]; eauto.
      by rewrite Hpc.
    + apply lookup_ge_None in Hy. apply lookup_lt_Some in Hx.
      pose proof (parent_lt c Hc). lia.
Qed.

(** Writing [newitem] into the hole gives a heap, when its parent is not
    larger and its children are not smaller. *)
Lemma fill_hole heap pos newitem :
  pos < length heap →
  hole_ok heap pos →
  above_children heap pos newitem →
  (pos = 0 ∨ ∃ y, heap !! parent pos = Some y ∧ py_lt newitem y = false) →
  is_heap (<[pos := newitem]> heap).
Proof.
  intros Hlen [Ha Hb] Hc Hp i x y Hi Hx Hy.
  pose proof (parent_lt i Hi) as Hlt.
  apply list_lookup_insert_Some in Hx as [(-> & -> & _) | [Hne Hx]].
  - rewrite list_lookup_insert_ne in Hy by lia.
    destruct Hp as [-> | (y' & Hy' & Hlt')]; [lia|]. congruence.
  - apply list_lookup_insert_Some in Hy as [(Hpi & -> & _) | [Hne' Hy]].
    + by eapply Hc.
    + by eapply Ha.
Qed.

(** One round of [_siftdown]: the parent comes down, the hole goes up. *)
Lemma hole_up heap pos newitem (y : A) :
  0 < pos → pos < length heap →
  heap !! parent pos = Some y →
  py_lt newitem y = true →
  hole_ok heap pos →
  above_children heap pos newitem →
  hole_ok (<[pos := y]> heap) (parent pos)
  ∧ above_children (<[pos := y]> heap) (parent pos) newitem.
Proof.
  intros Hpos Hlen Hy Hlt [Ha Hb] Hc.
  pose proof (parent_lt pos Hpos) as Hpp.
  assert (py_lt y newitem = false) as Hyn by by apply lt_asym.
  split; [split|].
  - intros i a b Hi Hne Hpne Hia Hib.
    apply list_lookup_insert_Some in Hia as [(<- & _) | [Hne' Hia]];
      [done|].
    apply list_lookup_insert_Some in Hib as [(Hpi & <- & _) | [Hne'' Hib]].
    + by eapply Hb.
    + by eapply Ha.
  - intros c a z Hppos Hc0 Hpc Hca Hz.
    pose proof (parent_lt _ Hppos) as Hppp.
    rewrite list_lookup_insert_ne in Hz by lia.
    assert (py_lt y z = false) as Hyz.
    { eapply (Ha (parent pos)); eauto; lia. }
    apply list_lookup_insert_Some in Hca as [(<- & <- & _) | [Hne' Hca]];
      [done|].
    eapply lt_negtrans; [exact Hyz|].
    eapply (Ha c); eauto; [lia | by rewrite Hpc].
  - intros c a Hc0 Hpc Hca.
    apply list_lookup_insert_Some in Hca as [(<- & <- & _) | [Hne' Hca]];
      [done|].
    eapply lt_negtrans; [exact Hyn|].
    eapply (Ha c); eauto; [lia | by rewrite Hpc].
Qed.

Lemma siftdown_loop_spec (fuel : nat) heap pos newitem :
  pos ≤ fuel → pos < length heap →
  hole_ok heap pos →
  above_children heap pos newitem →
  is_heap (_siftdown_loop fuel heap 0 pos newitem)
  ∧ _siftdown_loop fuel heap 0 pos newitem ≡ₚ <[pos := newitem]> heap.
Proof.
  revert heap pos.
  induction fuel as [| fuel IH]; intros heap pos Hfuel Hlen Hhole Hc;
    cbn [_siftdown_loop].
  { split; [|done]. apply fill_hole; auto. left. lia. }
  case_bool_decide as Hpos.
  2:{ split; [|done]. apply fill_hole; auto. left. lia. }
  pose proof (parent_lt pos Hpos) as Hpp.
  destruct (heap !! parent pos) as [y|] eqn:Hy.
  2:{ apply lookup_ge_None in Hy. lia. }
  destruct (py_lt newitem y) eqn:Hlt.
  2:{ split; [|done]. apply fill_hole; eauto. }
  destruct (hole_up heap pos newitem y) as [Hhole' Hc']; auto.
  destruct (IH (<[pos := y]> heap) (parent pos)) as [Hheap Hperm]; auto.
  { lia. }
  { rewrite length_insert. lia. }
  split; [done|]. rewrite Hperm.
  apply move_hole_perm; [lia | done | done].
Qed.

Lemma siftdown_spec heap pos :
  pos < length heap →
  hole_ok heap pos →
  (∀ x, heap !! pos = Some x → above_children heap pos x) →
  is_heap (_siftdown heap 0 pos) ∧ _siftdown heap 0 pos ≡ₚ heap.
Proof.
  intros Hlen Hhole Hc. unfold _siftdown.
  destruct (heap !! pos) as [newitem|] eqn:Hpos.
  2:{ apply lookup_ge_None in Hpos. lia. }
  destruct (siftdown_loop_spec pos heap pos newitem) as [Hheap Hperm];
    auto.
  split; [done|]. by rewrite Hperm, list_insert_id.
Qed.

Lemma heappush_spec heap (item : A) :
  is_heap heap →
  is_heap (heappush heap item) ∧ heappush heap item ≡ₚ item :: heap.
Proof.
  intros Hh. unfold heappush.
  assert (length (heap ++ [item]) - 1 = length heap) as ->.
  { rewrite length_app. cbn. lia. }
  destruct (siftdown_spec (heap ++ [item]) (length heap))
    as [Hheap Hperm].
  - rewrite length_app. cbn. lia.
  - split.
    + intros i x y Hi Hne Hpne Hx Hy.
      pose proof (parent_lt i Hi).
      assert (i < length heap).
      { apply lookup_lt_Some in Hx. rewrite length_app in Hx.
        cbn in Hx. lia. }
      rewrite lookup_app_l in Hx, Hy by lia. by eapply Hh.
    + intros c x z _ Hc Hpc Hx _.
      apply lookup_lt_Some in Hx. rewrite length_app in Hx. cbn in Hx.
      destruct (parent_children c Hc); lia.
  - intros x _ c a Hc Hpc Ha.
    apply lookup_lt_Some in Ha. rewrite length_app in Ha. cbn in Ha.
    destruct (parent_children c Hc); lia.
  - split; [done|]. rewrite Hperm. by rewrite Permutation_app_comm.
Qed.

(** One round of [_siftup]: the smaller child comes up, the hole goes
    down. *)
Lemma hole_down heap pos (c : nat) (child : A) :
  pos < length heap → 0 < c → parent c = pos →
  heap !! c = Some child →
  (∀ c' x, 0 < c' → parent c' = pos → c' ≠ c → heap !! c' = Some x →
     py_lt x child = false) →
  hole_ok heap pos →
  hole_ok (<[pos := child]> heap) c.
Proof.
  intros Hlen Hc Hpc Hchild Hother [Ha Hb].
  pose proof (parent_lt c Hc) as Hlt.
  split.
  - intros i a b Hi Hne Hpne Hia Hib.
    pose proof (parent_lt i Hi) as Hlti.
    apply list_lookup_insert_Some in Hia as [(<- & <- & _) | [Hne' Hia]].
    + rewrite list_lookup_insert_ne in Hib by lia. by eapply (Hb c).
    + apply list_lookup_insert_Some in Hib as [(Hpi & <- & _) | [Hne'' Hib]].
      * by eapply (Hother i).
      * by eapply Ha.
  - intros d a z _ Hd Hpd Hda Hz.
    pose proof (parent_lt d Hd) as Hltd.
    rewrite Hpc, list_lookup_insert_eq in Hz by done. simplify_eq.
    rewrite list_lookup_insert_ne in Hda by lia.
    eapply (Ha d); [lia | lia | lia | done | done].
Qed.

Lemma smaller_child heap pos (c : nat) :
  2 * pos + 1 < length heap →
  c = (if right_is_smaller heap (length heap) (2 * pos + 1)
       then 2 * pos + 1 + 1 else 2 * pos + 1) →
  0 < c ∧ parent c = pos ∧ pos < c
  ∧ ∃ child, heap !! c = Some child
      ∧ ∀ c' x, 0 < c' → parent c' = pos → c' ≠ c → heap !! c' = Some x →
          py_lt x child = false.
Proof.
  intros Hlen ->. unfold right_is_smaller.
  destruct (lookup_lt_is_Some_2 heap (2 * pos + 1) Hlen) as [l Hl].
  rewrite Hl.
  destruct (heap !! (2 * pos + 1 + 1)) as [r|] eqn:Hr.
  - destruct (bool_decide (2 * pos + 1 + 1 < length heap) && negb (py_lt l r))
      eqn:Hsel.
    + apply andb_true_iff in Hsel as [_ Hlr].
      apply negb_true_iff in Hlr.
      split_and!; [lia | | lia |].
      { replace (2 * pos + 1 + 1) with (2 * pos + 2) by lia.
        apply parent_right. }
      exists r. split; [done|]. intros c' x Hc' Hpc' Hne Hx.
      destruct (parent_children c' Hc') as [E | E]; rewrite Hpc' in E.
      * rewrite E, Hl in Hx. by simplify_eq.
      * lia.
    + apply andb_false_iff in Hsel as [Hb | Hlr].
      { apply bool_decide_eq_false in Hb. apply lookup_lt_Some in Hr. lia. }
      apply negb_false_iff in Hlr.
      split_and!; [lia | apply parent_left | lia |].
      exists l. split; [done|]. intros c' x Hc' Hpc' Hne Hx.
      destruct (parent_children c' Hc') as [E | E]; rewrite Hpc' in E.
      * lia.
      * replace c' with (2 * pos + 1 + 1) in Hx by lia.
        rewrite Hr in Hx. simplify_eq. by apply lt_asym.
  - split_and!; [lia | apply parent_left | lia |].
    exists l. split; [done|]. intros c' x Hc' Hpc' Hne Hx.
    destruct (parent_children c' Hc') as [E | E]; rewrite Hpc' in E.
    + lia.
    + replace c' with (2 * pos + 1 + 1) in Hx by lia. congruence.
Qed.

Lemma siftup_loop_spec (fuel : nat) heap (endpos pos : nat)
    (heap' : list A) (pos' : nat) :
  endpos = length heap →
  endpos - pos ≤ fuel → pos < endpos →
  hole_ok heap pos →
  _siftup_loop fuel heap endpos pos = (heap', pos') →
  hole_ok heap' pos' ∧ pos' < length heap'
  ∧ length heap' ≤ 2 * pos' + 1
  ∧ ∀ x, <[pos' := x]> heap' ≡ₚ <[pos := x]> heap.
Proof.
  revert heap pos.
  induction fuel as [| fuel IH]; intros heap pos -> Hfuel Hlen Hhole;
    cbn [_siftup_loop]; [lia|].
  case_bool_decide as Hchild.
  2:{ intros [= <- <-]. split_and!; [done | done | lia | done]. }
  set (c := if right_is_smaller heap (length heap) (2 * pos + 1)
            then 2 * pos + 1 + 1 else 2 * pos + 1).
  destruct (smaller_child heap pos c Hchild eq_refl)
    as (Hc & Hpc & Hlt & child & Hc_child & Hother).
  rewrite Hc_child. intros Hloop.
  pose proof (lookup_lt_Some _ _ _ Hc_child) as Hclen.
  apply IH in Hloop as (Hhole' & Hlen' & Hleaf & Hperm).
  - split_and!; [done | done | done |].
    intros x. rewrite Hperm. apply move_hole_perm; [lia | done | done].
  - by rewrite length_insert.
  - lia.
  - done.
  - by eapply hole_down.
Qed.

Lemma siftup_spec heap :
  0 < length heap →
  hole_ok heap 0 →
  is_heap (_siftup heap 0) ∧ _siftup heap 0 ≡ₚ heap.
Proof.
  intros Hlen Hhole. unfold _siftup.
  destruct (lookup_lt_is_Some_2 heap 0 Hlen) as [newitem Hnew].
  rewrite Hnew.
  destruct (_siftup_loop (length heap) heap (length heap) 0)
    as [heap' pos'] eqn:Hloop.
  apply siftup_loop_spec in Hloop as (Hhole' & Hlen' & Hleaf & Hperm);
    [| done | lia | done | done].
  destruct (siftdown_spec (<[pos' := newitem]> heap') pos')
    as [Hheap Hperm'].
  - by rewrite length_insert.
  - by apply hole_ok_insert.
  - intros x _ c a Hc Hpc Ha. apply lookup_lt_Some in Ha.
    rewrite length_insert in Ha.
    destruct (parent_children c Hc); lia.
  - split; [done|].
    rewrite Hperm', Hperm. by rewrite list_insert_id.
Qed.

Lemma is_heap_prefix (l1 l2 : list A) : is_heap (l1 ++ l2) → is_heap l1.
Proof.
  intros Hh i x y Hi Hx Hy. eapply (Hh i); [done | |];
    by apply lookup_app_l_Some.
Qed.

Lemma heappop_None heap : heappop heap = None ↔ heap = [].
Proof.
  unfold heappop. split; [|by intros ->].
  destruct (last heap) as [lastelt|] eqn:Hlast.
  - by destruct (take _ heap).
  - intros _. by apply last_None.
Qed.

Lemma heappop_spec heap (x : A) (rest : list A) :
  is_heap heap →
  heappop heap = Some (x, rest) →
  is_heap rest ∧ heap ≡ₚ x :: rest ∧ heap !! 0 = Some x.
Proof.
  intros Hh. unfold heappop.
  destruct (last heap) as [lastelt|] eqn:Hlast; [|done].
  apply last_Some in Hlast as [front ->].
  rewrite length_app. cbn [length].
  replace (length front + 1 - 1) with (length front) by lia.
  rewrite take_app_length.
  destruct front as [| returnitem front']; intros [= <- <-].
  { split_and!; [by intros i ??? Hx; destruct i | done | done]. }
  destruct (siftup_spec (<[0 := lastelt]> (returnitem :: front')))
    as [Hheap Hperm].
  - cbn. lia.
  - apply hole_ok_insert, is_heap_hole_ok.
    by eapply is_heap_prefix.
  - split_and!; [done | | done].
    rewrite Hperm. cbn. f_equiv. by rewrite Permutation_app_comm.
Qed.

(** The root of a heap is a smallest item. *)
Lemma root_min heap (x : A) :
  is_heap heap → heap !! 0 = Some x →
  ∀ i y, heap !! i = Some y → py_lt y x = false.
Proof.
  intros Hh Hx i. induction (lt_wf i) as [i _ IH]. intros y Hy.
  destruct (decide (i = 0)) as [-> | Hi].
  { simplify_eq. apply lt_irrefl. }
  pose proof (parent_lt i ltac:(lia)) as Hlt.
  destruct (lookup_lt_is_Some_2 heap (parent i)) as [z Hz].
  { apply lookup_lt_Some in Hy. lia. }
  eapply lt_negtrans; [eapply (IH (parent i)); eauto|].
  eapply (Hh i); eauto. lia.
Qed.

Lemma heappop_min heap (x : A) (rest : list A) :
  is_heap heap →
  heappop heap = Some (x, rest) →
  Forall (λ y, py_lt y x = false) rest.
Proof.
  intros Hh Hpop.
  destruct (heappop_spec heap x rest Hh Hpop) as (_ & Hperm & Hroot).
  apply Forall_forall. intros y Hy.
  assert (y ∈ heap) as Hin by (rewrite Hperm; by right).
  apply list_elem_of_lookup in Hin as [i Hi].
  by eapply root_min.
Qed.

(** Popping until the heap is empty gives its items in order. *)
Lemma drain_loop_spec (fuel : nat) heap :
  length heap ≤ fuel → is_heap heap →
  drain_loop fuel heap ≡ₚ heap
  ∧ StronglySorted (λ a b, py_lt b a = false) (drain_loop fuel heap).
Proof.
  revert heap. induction fuel as [| fuel IH]; intros heap Hfuel Hh;
    cbn [drain_loop].
  { destruct heap; [|cbn in Hfuel; lia]. split; [done | constructor]. }
  destruct (heappop heap) as [[x rest]|] eqn:Hpop.
  2:{ apply heappop_None in Hpop as ->. split; [done | constructor]. }
  destruct (heappop_spec heap x rest Hh Hpop) as (Hrest & Hperm & _).
  pose proof (heappop_min heap x rest Hh Hpop) as Hmin.
  destruct (IH rest) as [Hperm' Hsorted]; [|done|].
  { apply Permutation_length in Hperm. cbn in Hperm. lia. }
  split.
  - by rewrite Hperm, Hperm'.
  - constructor; [done|]. by rewrite Hperm'.
Qed.

Lemma drain_spec heap :
  is_heap heap →
  drain heap ≡ₚ heap
  ∧ StronglySorted (λ a b, py_lt b a = false) (drain heap).
Proof. intros Hh. by apply drain_loop_spec. Qed.

Lemma is_heap_nil : is_heap (@nil A).
Proof. by intros i x y _ Hx. Qed.
End heapq_facts.

(** * Timer handles in order *)

Lemma TimerHandle_lt_spec (a b : TimerHandle) :
  py_lt a b = true
  ↔ (_when a < _when b)%Z ∨ (_when a = _when b ∧ _seq a < _seq b).
Proof.
  unfold py_lt, TimerHandle_lt.
  rewrite orb_true_iff, andb_true_iff, Z.ltb_lt, Z.eqb_eq, Nat.ltb_lt.
  done.
Qed.

Lemma TimerHandle_lt_false (a b : TimerHandle) :
  py_lt a b = false
  ↔ (_when b < _when a)%Z ∨ (_when a = _when b ∧ _seq b ≤ _seq a).
Proof.
  rewrite <- not_true_iff_false, TimerHandle_lt_spec. lia.
Qed.

#[export] Instance TimerHandle_order : LtOrder TimerHandle.
Proof.
  split.
  - intros a b. rewrite TimerHandle_lt_spec, TimerHandle_lt_false. lia.
  - intros a b c. rewrite !TimerHandle_lt_false. lia.
Qed.

Lemma TimerHandle_eq_spec (a b : TimerHandle) :
  TimerHandle_eq a b = true ↔ _when a = _when b ∧ _seq a = _seq b.
Proof.
  unfold TimerHandle_eq. by rewrite andb_true_iff, Z.eqb_eq, Nat.eqb_eq.
Qed.

Lemma tuple_lt_spec (a b : Z * TimerHandle) :
  py_lt a b = true
  ↔ (a.1 < b.1)%Z ∨ (a.1 = b.1 ∧ py_lt a.2 b.2 = true).
Proof.
  unfold py_lt at 1, tuple_lt.
  destruct (Z.eqb_spec a.1 b.1) as [E | E]; cbn [negb].
  - destruct (TimerHandle_eq a.2 b.2) eqn:Heq; cbn [negb].
    + apply TimerHandle_eq_spec in Heq. rewrite TimerHandle_lt_spec. lia.
    + rewrite TimerHandle_lt_spec. lia.
  - rewrite Z.ltb_lt, TimerHandle_lt_spec. lia.
Qed.

Lemma tuple_lt_false (a b : Z * TimerHandle) :
  py_lt a b = false
  ↔ (b.1 < a.1)%Z ∨ (a.1 = b.1 ∧ py_lt a.2 b.2 = false).
Proof.
  rewrite <- (not_true_iff_false (py_lt a b)), tuple_lt_spec.
  rewrite TimerHandle_lt_spec, TimerHandle_lt_false. lia.
Qed.

#[export] Instance tuple_order : LtOrder (Z * TimerHandle).
Proof.
  split.
  - intros a b. rewrite tuple_lt_spec, tuple_lt_false.
    intros [Hlt | [Heq Hlt]]; [lia|]. right. split; [done|].
    by apply lt_asym.
  - intros a b c. rewrite !tuple_lt_false.
    intros [H1 | [E1 H1]] [H2 | [E2 H2]]; try lia.
    right. split; [lia|]. by eapply lt_negtrans.
Qed.

Lemma StronglySorted_lookup {A : Type} (R : relation A) (l : list A)
    (i j : nat) (a b : A) :
  StronglySorted R l → i < j → l !! i = Some a → l !! j = Some b → R a b.
Proof.
  intros Hs. revert i j. induction Hs as [| x l Hs IH Hall]; intros i j Hij Hi Hj.
  { done. }
  destruct j as [| j]; [lia|]. cbn in Hj. destruct i as [| i].
  - cbn in Hi. simplify_eq. rewrite Forall_forall in Hall.
    apply Hall. by eapply list_elem_of_lookup_2.
  - cbn in Hi. eapply (IH i j); [lia | done | done].
Qed.

Lemma StronglySorted_weaken {A : Type} (R1 R2 : relation A) (l : list A) :
  (∀ a b, R1 a b → R2 a b) → StronglySorted R1 l → StronglySorted R2 l.
Proof.
  intros HR. induction 1 as [| x l Hs IH Hall]; constructor; [done|].
  eapply Forall_impl; [exact Hall | by auto].
Qed.

(** ** The scheduler keeps a heap *)

Section scheduler_facts.
Import DeadlineHeap.

Lemma schedule_is_heap (deadline : Z) (callback : string) (s : Scheduler) :
  is_heap (_scheduled s) →
  is_heap (_scheduled (schedule deadline callback s).2).
Proof. intros Hh. cbn. by apply heappush_spec. Qed.

Lemma heappop_length {A : Type} `{LtOrder A} (heap rest : list A) (x : A) :
  is_heap heap → heappop heap = Some (x, rest) →
  length heap = S (length rest).
Proof.
  intros Hh Hpop.
  destruct (heappop_spec heap x rest Hh Hpop) as (_ & Hperm & _).
  by rewrite Hperm.
Qed.

(** What one call of [pop_ready] does to the heap. *)
Lemma pop_ready_loop_spec (fuel : nat) (now : Z) (cancelled : gset nat)
    (scheduled rest : list TimerHandle) (ready : option TimerHandle) :
  length scheduled ≤ fuel →
  is_heap scheduled →
  pop_ready_loop fuel now cancelled scheduled = (ready, rest) →
  is_heap rest
  ∧ (∃ discarded,
       scheduled ≡ₚ discarded ++ (option_list ready ++ rest)
       ∧ Forall (λ h, _seq h ∈ cancelled) discarded)
  ∧ match ready with
    | Some h =>
        (_when h ≤ now)%Z ∧ (_seq h ∉ cancelled)
        ∧ Forall (λ y, py_lt y h = false) rest
    | None =>
        rest = []
        ∨ ∃ m, rest !! 0 = Some m ∧ (_seq m ∉ cancelled) ∧ (now < _when m)%Z
    end.
Proof.
  revert scheduled.
  induction fuel as [| fuel IH]; intros scheduled Hfuel Hh;
    cbn [pop_ready_loop].
  { intros [= <- <-]. destruct scheduled; [|cbn in Hfuel; lia].
    split; [done|]. split; [by exists [] | by left]. }
  destruct (scheduled !! 0) as [m|] eqn:Hroot.
  2:{ intros [= <- <-]. destruct scheduled; [|done].
      split; [done|]. split; [by exists [] | by left]. }
  unfold is_cancelled. case_bool_decide as Hcanc.
  - destruct (heappop scheduled) as [[x scheduled']|] eqn:Hpop.
    2:{ apply heappop_None in Hpop. by subst. }
    destruct (heappop_spec _ _ _ Hh Hpop) as (Hh' & Hperm & Hx).
    assert (x = m) as -> by congruence.
    intros Hloop. apply IH in Hloop as (Hrest & (disc & Hperm' & Hdisc) & Hres);
      [| apply heappop_length in Hpop; [lia | done] | done].
    split; [done|]. split; [|done].
    exists (m :: disc). split; [by rewrite Hperm, Hperm' | by constructor].
  - case_bool_decide as Hdue.
    + destruct (heappop scheduled) as [[x scheduled']|] eqn:Hpop.
      2:{ apply heappop_None in Hpop. by subst. }
      destruct (heappop_spec _ _ _ Hh Hpop) as (Hh' & Hperm & Hx).
      assert (x = m) as -> by congruence.
      intros [= <- <-]. split; [done|]. split.
      { exists []. split; [exact Hperm | constructor]. }
      split; [done|]. split; [done|].
      exact (heappop_min scheduled m scheduled' Hh Hpop).
    + intros [= <- <-]. split; [done|]. split; [by exists []|].
      right. exists m. split; [done|]. split; [done | lia].
Qed.

Lemma pop_ready_is_heap (now : Z) (s : Scheduler) :
  is_heap (_scheduled s) → is_heap (_scheduled (pop_ready now s).2).
Proof.
  intros Hh. unfold pop_ready.
  destruct (pop_ready_loop _ _ _ _) as [ready rest] eqn:Hloop.
  by apply pop_ready_loop_spec in Hloop as [? _].
Qed.

Lemma run_ops_is_heap (ops : list op) (s : Scheduler) :
  is_heap (_scheduled s) → is_heap (_scheduled (run_ops ops s)).
Proof.
  revert s. induction ops as [| o ops IH]; intros s Hh; [done|].
  cbn [run_ops]. apply IH. destruct o as [d c | h | now]; cbn [apply_op].
  - by apply schedule_is_heap.
  - done.
  - by apply pop_ready_is_heap.
Qed.

Lemma reachable_is_heap (ops : list op) :
  is_heap (_scheduled (run_ops ops new_scheduler)).
Proof. apply run_ops_is_heap, is_heap_nil. Qed.

(** Cancellation is never undone. *)
Lemma apply_op_cancelled (o : op) (s : Scheduler) :
  _cancelled s ⊆ _cancelled (apply_op o s).
Proof.
  destruct o as [d c | h | now]; cbn [apply_op].
  - done.
  - cbn. set_solver.
  - unfold pop_ready. by destruct (pop_ready_loop _ _ _ _).
Qed.

Lemma run_ops_cancelled (ops : list op) (s : Scheduler) :
  _cancelled s ⊆ _cancelled (run_ops ops s).
Proof.
  revert s. induction ops as [| o ops IH]; intros s; [done|].
  cbn [run_ops]. etrans; [apply (apply_op_cancelled o)|apply IH].
Qed.

Lemma run_ops_cancel (ops : list op) (h : TimerHandle) (s : Scheduler) :
  Cancel h ∈ ops → _seq h ∈ _cancelled (run_ops ops s).
Proof.
  revert s. induction ops as [| o ops IH]; intros s Hin.
  { by apply elem_of_nil in Hin. }
  apply elem_of_cons in Hin as [<- | Hin]; cbn [run_ops].
  - apply run_ops_cancelled. cbn. set_solver.
  - by apply IH.
Qed.

(** The sequence numbers grow with every [schedule]. *)
Lemma apply_op_next_seq (o : op) (s : Scheduler) :
  _next_seq s ≤ _next_seq (apply_op o s).
Proof.
  destruct o as [d c | h | now]; cbn [apply_op]; cbn; try lia.
  unfold pop_ready. destruct (pop_ready_loop _ _ _ _). cbn. lia.
Qed.

Lemma run_ops_next_seq (ops : list op) (s : Scheduler) :
  _next_seq s ≤ _next_seq (run_ops ops s).
Proof.
  revert s. induction ops as [| o ops IH]; intros s; [done|].
  cbn [run_ops]. pose proof (apply_op_next_seq o s).
  pose proof (IH (apply_op o s)). lia.
Qed.
End scheduler_facts.

Section scheduler_claims.
Import DeadlineHeap.

Lemma pushes_spec {A : Type} `{LtOrder A} (items heap : list A) :
  is_heap heap →
  is_heap (foldl heappush heap items)
  ∧ foldl heappush heap items ≡ₚ heap ++ items.
Proof.
  revert heap. induction items as [| x items IH]; intros heap Hh; cbn [foldl].
  { split; [done | by rewrite app_nil_r]. }
  destruct (heappush_spec heap x Hh) as [Hh' Hperm].
  destruct (IH _ Hh') as [Hh'' Hperm'].
  split; [done|]. rewrite Hperm', Hperm.
  cbn [app]. apply Permutation_middle.
Qed.

(** All of what [pop_ready] promises, on a scheduler whose heap is a heap. *)
Lemma pop_ready_spec (now : Z) (s : Scheduler) :
  is_heap (_scheduled s) →
  let ready := (pop_ready now s).1 in
  let s' := (pop_ready now s).2 in
  _cancelled s' = _cancelled s
  ∧ (∃ discarded,
       _scheduled s ≡ₚ discarded ++ (option_list ready ++ _scheduled s')
       ∧ Forall (λ h, _seq h ∈ _cancelled s) discarded)
  ∧ (∀ h, ready = Some h →
       (_when h ≤ now)%Z ∧ (_seq h ∉ _cancelled s) ∧ h ∈ _scheduled s
       ∧ ∀ y, y ∈ _scheduled s → _seq y ∉ _cancelled s →
           py_lt y h = false)
  ∧ (ready = None →
       (_scheduled s' = []
        ∨ ∃ m, _scheduled s' !! 0 = Some m ∧ (now < _when m)%Z)
       ∧ ∀ h, h ∈ _scheduled s →
           _seq h ∈ _cancelled s ∨ (now < _when h)%Z).
Proof.
  intros Hh. unfold pop_ready.
  destruct (pop_ready_loop _ _ _ _) as [ready rest] eqn:Hloop.
  cbn [fst snd _cancelled _scheduled].
  apply pop_ready_loop_spec in Hloop
    as (Hrest & (disc & Hperm & Hdisc) & Hres); [|done|done].
  split; [done|]. split; [by exists disc|].
  rewrite Forall_forall in Hdisc. split.
  - intros h ->. destruct Hres as (Hdue & Hlive & Hmin).
    cbn [option_list] in Hperm. rewrite Forall_forall in Hmin.
    split; [done|]. split; [done|]. split.
    { rewrite Hperm. set_solver. }
    intros y Hy Hylive. rewrite Hperm in Hy.
    apply elem_of_app in Hy as [Hy | Hy]; [by apply Hdisc in Hy|].
    apply elem_of_cons in Hy as [-> | Hy]; [apply lt_irrefl | by apply Hmin].
  - intros ->. cbn [option_list app] in Hperm.
    destruct Hres as [-> | (m & Hm & Hlive & Hfuture)].
    { split; [by left|]. intros h Hin. left. apply Hdisc.
      by rewrite Hperm, app_nil_r in Hin. }
    split; [right; by eauto|]. intros h Hin. rewrite Hperm in Hin.
    apply elem_of_app in Hin as [Hin | Hin]; [left; by apply Hdisc|].
    right. apply list_elem_of_lookup in Hin as [i Hi].
    pose proof (root_min rest m Hrest Hm i h Hi) as Hle.
    apply TimerHandle_lt_false in Hle. lia.
Qed.

(** C8: after any sequence of [schedule], [cancel] and [pop_ready],
    [pop_ready(now)] returns only a handle that is due and that no earlier
    [cancel] was given; that handle was in the heap and no handle that is
    not cancelled comes before it; the handles removed and not returned
    were all cancelled; "none ready" leaves a heap that is empty or whose
    minimum lies in the future, and it is returned exactly when every
    handle of the heap is cancelled or lies in the future. *)
Theorem pop_ready_sound (ops : list op) (now : Z) :
  let s := run_ops ops new_scheduler in
  let ready := (pop_ready now s).1 in
  let s' := (pop_ready now s).2 in
  (∀ h, ready = Some h →
     (_when h ≤ now)%Z
     ∧ (∀ h', Cancel h' ∈ ops → _seq h' ≠ _seq h)
     ∧ h ∈ _scheduled s
     ∧ ∀ y, y ∈ _scheduled s → _seq y ∉ _cancelled s → py_lt y h = false)
  ∧ (ready = None →
     _scheduled s' = []
     ∨ ∃ m, _scheduled s' !! 0 = Some m ∧ (now < _when m)%Z)
  ∧ (ready = None
     ↔ ∀ h, h ∈ _scheduled s → _seq h ∈ _cancelled s ∨ (now < _when h)%Z)
  ∧ ∃ discarded,
      _scheduled s ≡ₚ discarded ++ (option_list ready ++ _scheduled s')
      ∧ Forall (λ h, _seq h ∈ _cancelled s) discarded.
Proof.
  intros s ready s'.
  destruct (pop_ready_spec now s (reachable_is_heap ops))
    as (_ & Hdisc & Hsome & Hnone).
  split; [|split; [by intros H; apply Hnone | split; [|exact Hdisc]]].
  - intros h Hh. destruct (Hsome h Hh) as (Hdue & Hlive & Hin & Hmin).
    split; [done|]. split; [|done].
    intros h' Hc Heq. apply Hlive. rewrite <- Heq.
    by apply run_ops_cancel.
  - split; [by intros H; apply Hnone|].
    intros Hall. destruct ready as [h|] eqn:Hr; [|done].
    destruct (Hsome h) as (Hdue & Hlive & Hin & _); [by subst ready|].
    destruct (Hall h Hin) as [Hc | Hf]; [done | lia].
Qed.

(** Scenario B: a handle scheduled at 10 and cancelled is not returned by
    [pop_ready(10)]. *)
Example scenario_B :
  let '(handle, s) := schedule 10 "callback" new_scheduler in
  (pop_ready 10 (DeadlineHeap.cancel handle s)).1 = None.
Proof. vm_compute. reflexivity. Qed.

Lemma pop_ready_sound_witness :
  let ops := [Schedule 5 "A"; Schedule 3 "B";
              DeadlineHeap.Cancel (mkTimerHandle 3 1 "B"); Schedule 7 "C"] in
  (pop_ready 6 (run_ops ops new_scheduler)).1 = Some (mkTimerHandle 5 0 "A")
  ∧ (5 ≤ 6)%Z
  ∧ ∀ h', DeadlineHeap.Cancel h' ∈ ops → _seq h' ≠ 0.
Proof.
  intros ops.
  assert ((pop_ready 6 (run_ops ops new_scheduler)).1
          = Some (mkTimerHandle 5 0 "A")) as Hpop by (vm_compute; reflexivity).
  split; [exact Hpop|].
  destruct (pop_ready_sound ops 6) as [Hsome _].
  destruct (Hsome _ Hpop) as (Hdue & Hlive & _).
  split; [exact Hdue | exact Hlive].
Defined.
End scheduler_claims.


Section handle_claims.
Import DeadlineHeap.

(** C6: a bare handle compares by the pair (deadline, sequence number),
    and this [<] is a strict total order on such pairs; a handle scheduled
    later has a larger sequence number, so of two handles with one deadline
    the one scheduled first is the smaller; it is popped first when the heap
    is drained, and [pop_ready] does not return the second while the first
    is in the heap and not cancelled. *)
Theorem handles_ordered_by_deadline_then_sequence :
  (∀ a b : TimerHandle,
     py_lt a b = true
     ↔ (_when a < _when b)%Z ∨ (_when a = _when b ∧ _seq a < _seq b))
  ∧ (∀ a : TimerHandle, py_lt a a = false)
  ∧ (∀ a b c : TimerHandle,
       py_lt a b = true → py_lt b c = true → py_lt a c = true)
  ∧ (∀ a b : TimerHandle,
       py_lt a b = true ∨ py_lt b a = true
       ∨ (_when a = _when b ∧ _seq a = _seq b))
  ∧ (∀ ops ops' d c1 c2,
       let s1 := run_ops ops new_scheduler in
       let h1 := (schedule d c1 s1).1 in
       let s2 := run_ops ops' (schedule d c1 s1).2 in
       let h2 := (schedule d c2 s2).1 in
       _seq h1 < _seq h2 ∧ py_lt h1 h2 = true)
  ∧ (∀ ops h1 h2,
       let s := run_ops ops new_scheduler in
       h1 ∈ _scheduled s → h2 ∈ _scheduled s →
       _when h1 = _when h2 → _seq h1 < _seq h2 →
       (∃ i j, drain (_scheduled s) !! i = Some h1
               ∧ drain (_scheduled s) !! j = Some h2)
       ∧ (∀ i j, drain (_scheduled s) !! i = Some h1 →
                 drain (_scheduled s) !! j = Some h2 → i < j)
       ∧ (∀ now, _seq h1 ∉ _cancelled s →
                 (pop_ready now s).1 ≠ Some h2)).
Proof.
  split; [exact TimerHandle_lt_spec|].
  split; [exact lt_irrefl|].
  split; [intros a b c; rewrite !TimerHandle_lt_spec; lia|].
  split; [intros a b; rewrite !TimerHandle_lt_spec; lia|].
  split.
  - intros ops ops' d c1 c2 s1 h1 s2 h2.
    assert (_seq h1 < _seq h2) as Hlt.
    { subst h1 h2 s2. cbn [schedule fst snd _seq].
      pose proof (run_ops_next_seq ops'
                    (mkScheduler
                       (heappush (_scheduled s1) (mkTimerHandle d (_next_seq s1) c1))
                       (_cancelled s1) (S (_next_seq s1)))) as Hmono.
      cbn [_next_seq] in Hmono. lia. }
    split; [done|]. apply TimerHandle_lt_spec. right. split; [done|exact Hlt].
  - intros ops h1 h2 s Hin1 Hin2 Hwhen Hseq.
    pose proof (reachable_is_heap ops) as Hh. fold s in Hh.
    destruct (drain_spec (_scheduled s) Hh) as [Hperm Hsorted].
    assert (py_lt h1 h2 = true) as Hlt.
    { apply TimerHandle_lt_spec. by right. }
    split; [|split].
    + rewrite <- Hperm in Hin1, Hin2.
      apply list_elem_of_lookup in Hin1 as [i Hi].
      apply list_elem_of_lookup in Hin2 as [j Hj]. by eauto.
    + intros i j Hi Hj.
      destruct (decide (i < j)) as [|Hge]; [done|]. exfalso.
      destruct (decide (i = j)) as [-> | Hne].
      { assert (h1 = h2) by congruence. subst. lia. }
      pose proof (StronglySorted_lookup _ _ j i h2 h1 Hsorted
                    ltac:(lia) Hj Hi) as Hle.
      cbn in Hle. congruence.
    + intros now Hlive Hpop.
      destruct (pop_ready_spec now s Hh) as (_ & _ & Hsome & _).
      destruct (Hsome h2 Hpop) as (_ & _ & _ & Hmin).
      pose proof (Hmin h1 Hin1 Hlive). congruence.
Qed.

Lemma handles_ordered_by_deadline_then_sequence_witness :
  let s := run_ops [Schedule 3 "B"; Schedule 3 "C"] new_scheduler in
  (∀ i j, drain (_scheduled s) !! i = Some (mkTimerHandle 3 0 "B") →
          drain (_scheduled s) !! j = Some (mkTimerHandle 3 1 "C") → i < j)
  ∧ drain (_scheduled s) = [mkTimerHandle 3 0 "B"; mkTimerHandle 3 1 "C"].
Proof.
  intros s. split; [|vm_compute; reflexivity].
  destruct handles_ordered_by_deadline_then_sequence
    as (_ & _ & _ & _ & _ & Hpop).
  destruct (Hpop [Schedule 3 "B"; Schedule 3 "C"]
              (mkTimerHandle 3 0 "B") (mkTimerHandle 3 1 "C"))
    as (_ & Horder & _).
  - apply list_elem_of_lookup. exists 0. reflexivity.
  - apply list_elem_of_lookup. exists 1. reflexivity.
  - reflexivity.
  - cbn. lia.
  - exact Horder.
Defined.

Lemma drain_pushes_tuples (items : list (Z * TimerHandle)) :
  drain (foldl heappush [] items) ≡ₚ items
  ∧ StronglySorted (λ a b, (a.1 ≤ b.1)%Z) (drain (foldl heappush [] items)).
Proof.
  destruct (pushes_spec items [] is_heap_nil) as [Hh Hperm].
  destruct (drain_spec _ Hh) as [Hperm' Hsorted].
  split; [by rewrite Hperm', Hperm|].
  eapply StronglySorted_weaken; [|exact Hsorted].
  intros a b Hle. cbn in Hle. apply tuple_lt_false in Hle. lia.
Qed.

(** C7: draining the heap of a scheduler pops every handle of the heap, in
    non-decreasing deadline order; so does a heap of [(when, handle)]
    tuples; handles scheduled at 5, 3, 3, 1 with callbacks A, B, C, D are
    popped as D(1), B(3), C(3), A(5), by [heappop] as by [pop_ready]; and
    both benchmark functions pop their hundred handles by increasing
    deadline, 2 to 101. *)
Theorem pops_in_deadline_order :
  (∀ ops,
     let s := run_ops ops new_scheduler in
     drain (_scheduled s) ≡ₚ _scheduled s
     ∧ StronglySorted (λ a b, (_when a ≤ _when b)%Z) (drain (_scheduled s)))
  ∧ (∀ items : list (Z * TimerHandle),
     drain (foldl heappush [] items) ≡ₚ items
     ∧ StronglySorted (λ a b, (a.1 ≤ b.1)%Z)
         (drain (foldl heappush [] items)))
  ∧ (let s := run_ops [Schedule 5 "A"; Schedule 3 "B"; Schedule 3 "C";
                       Schedule 1 "D"] new_scheduler in
     map (λ h, (_callback h, _when h)) (drain (_scheduled s))
       = [("D", 1%Z); ("B", 3%Z); ("C", 3%Z); ("A", 5%Z)]
     ∧ map (λ h, (_callback h, _when h)) (pop_all_ready 4 5 s)
       = [("D", 1%Z); ("B", 3%Z); ("C", 3%Z); ("A", 5%Z)])
  ∧ (map _when heap_handle = map (λ i, Z.of_nat (2 + i)) (seq 0 100)
     ∧ map fst heap_tuple = map (λ i, Z.of_nat (2 + i)) (seq 0 100)
     ∧ map snd heap_tuple = heap_handle).
Proof.
  split; [|split; [exact drain_pushes_tuples | split]].
  - intros ops s.
    pose proof (reachable_is_heap ops) as Hh. fold s in Hh.
    destruct (drain_spec (_scheduled s) Hh) as [Hperm Hsorted].
    split; [done|].
    eapply StronglySorted_weaken; [|exact Hsorted].
    intros a b Hle. cbn in Hle. apply TimerHandle_lt_false in Hle. lia.
  - split; vm_compute; reflexivity.
  - split; [|split]; vm_compute; reflexivity.
Qed.
End handle_claims.

(** * More of the snapshot functions *)

Section snapshot_extras.

(** X1.  On a finished future the lockless snapshot returns
    [(True, False, result, exception)] and leaves the future as it is
    whoever holds the lock, while the snapshot that always locks cannot
    start as long as another thread holds the lock. *)
Theorem lockless_serves_finished_while_locked
    (me other : nat) (o : Future) :
  _state o = "FINISHED" →
  _condition o = Some other → other ≠ me →
  run me _get_snapshot_lockless_finished o
    = Returned (snapshot true false (_result o) (_exception o)) o
  ∧ run me _get_snapshot_with_lock o = Blocked
  ∧ tstep me o _get_snapshot_with_lock = None
  ∧ ∃ p, tstep me o _get_snapshot_lockless_finished = Some (o, p).
Proof.
  intros Hs Hl _. split; [by apply run_lockless_finished|].
  unfold _get_snapshot_with_lock, with_condition.
  cbn [run tstep]. rewrite Hl. split; [done|]. split; [done|].
  unfold _get_snapshot_lockless_finished. cbn [tstep]. by eexists.
Qed.

Lemma lockless_serves_finished_while_locked_witness :
  let o := mkFuture "FINISHED" (VInt 42) VNone (Some 1) [] in
  run 0 _get_snapshot_lockless_finished o
    = Returned (snapshot true false (VInt 42) VNone) o
  ∧ run 0 _get_snapshot_with_lock o = Blocked.
Proof.
  intros o.
  destruct (lockless_serves_finished_while_locked 0 1 o) as (H1 & H2 & _);
    [reflexivity | reflexivity | lia |].
  split; [exact H1 | exact H2].
Defined.

(** X2.  What a snapshot is made of: with the lock free, both functions
    return a tuple [(done, cancelled, result, exception)] in which
    cancelled implies done, done-and-not-cancelled is the state FINISHED,
    cancelled is the states CANCELLED and CANCELLED_AND_NOTIFIED, and the
    result and exception are [None] unless the state is FINISHED: a payload
    stored in a future that is not finished is never handed out. *)
Theorem snapshot_hides_unfinished_payload (me : nat) (o : Future) :
  _condition o = None →
  ∃ done cancelled res exc,
    run me _get_snapshot_with_lock o
      = Returned (snapshot done cancelled res exc) o
    ∧ run me _get_snapshot_lockless_finished o
      = Returned (snapshot done cancelled res exc) o
    ∧ (cancelled = true → done = true)
    ∧ (done = true ∧ cancelled = false ↔ _state o = "FINISHED")
    ∧ (cancelled = true
       ↔ _state o = "CANCELLED" ∨ _state o = "CANCELLED_AND_NOTIFIED")
    ∧ (_state o ≠ "FINISHED" → res = VNone ∧ exc = VNone)
    ∧ (_state o = "FINISHED" → res = _result o ∧ exc = _exception o).
Proof.
  intros Hl.
  rewrite (run_with_lock me o Hl), (run_lockless me o Hl).
  unfold snapshot_of.
  destruct (String.eqb (_state o) "FINISHED") eqn:Hf.
  - apply String.eqb_eq in Hf.
    exists true, false, (_result o), (_exception o).
    rewrite Hf. repeat split; try done.
    + intros [?|?]; done.
  - apply String.eqb_neq in Hf.
    destruct (py_in (_state o) ["CANCELLED"; "CANCELLED_AND_NOTIFIED"]) eqn:Hc.
    + exists true, true, VNone, VNone.
      repeat split; try done.
      * intros [_ ?]; done.
      * intros _. unfold py_in in Hc. cbn in Hc.
        rewrite !orb_true_iff in Hc.
        destruct Hc as [Hc | [Hc | ?]]; [| |done];
          apply String.eqb_eq in Hc; auto.
    + exists false, false, VNone, VNone.
      repeat split; try done.
      * intros [? _]; done.
      * intros [Hc' | Hc']; rewrite Hc' in Hc; done.
Qed.

Lemma snapshot_hides_unfinished_payload_witness :
  let o := mkFuture "PENDING" (VInt 7) (VInt 8) None [] in
  ∃ done cancelled res exc,
    run 0 _get_snapshot_lockless_finished o
      = Returned (snapshot done cancelled res exc) o
    ∧ res = VNone ∧ exc = VNone.
Proof.
  intros o.
  destruct (snapshot_hides_unfinished_payload 0 o eq_refl)
    as (d & c & v & e & _ & H2 & _ & _ & _ & H6 & _).
  exists d, c, v, e. split; [exact H2|]. by apply H6.
Defined.

(** X3.  Set up, then read (the loop over [states]): on a fresh future,
    after [set_result(v)] both functions return [(True, False, v, None)],
    after [set_exception(e)] [(True, False, None, e)], after [cancel()]
    [(True, True, None, None)] and with no set-up
    [(False, False, None, None)]; the four set-ups of [states] are of these
    kinds, so that the two functions return the same tuple in each of the
    benchmark's rows. *)
Theorem snapshot_after_setup (me : nat) :
  (∀ v, Forall (λ f, snapshot_after me (set_result v) f
                     = Returned (snapshot true false v VNone)
                         (mkFuture "FINISHED" v VNone None []))
          [_get_snapshot_with_lock; _get_snapshot_lockless_finished])
  ∧ (∀ e, Forall (λ f, snapshot_after me (set_exception e) f
                       = Returned (snapshot true false VNone e)
                           (mkFuture "FINISHED" VNone e None []))
            [_get_snapshot_with_lock; _get_snapshot_lockless_finished])
  ∧ Forall (λ f, snapshot_after me cancel f
                 = Returned (snapshot true true VNone VNone)
                     (mkFuture "CANCELLED" VNone VNone None []))
      [_get_snapshot_with_lock; _get_snapshot_lockless_finished]
  ∧ Forall (λ f, snapshot_after me (Return VNone) f
                 = Returned (snapshot false false VNone VNone) new_future)
      [_get_snapshot_with_lock; _get_snapshot_lockless_finished]
  ∧ Forall (λ st, snapshot_after me st.2 _get_snapshot_with_lock
                  = snapshot_after me st.2 _get_snapshot_lockless_finished)
      states.
Proof.
  assert (∀ o, _condition o = None →
            Forall (λ f, run me f o = Returned (snapshot_of o) o)
              [_get_snapshot_with_lock; _get_snapshot_lockless_finished])
    as Hboth.
  { intros o Hl. constructor; [|constructor; [|constructor]].
    - by apply run_with_lock.
    - by apply run_lockless. }
  assert (∀ setup,
            (∀ r o, run me setup new_future = Returned r o →
               _condition o = None) →
            snapshot_after me setup _get_snapshot_with_lock
            = snapshot_after me setup _get_snapshot_lockless_finished)
    as Hsame.
  { intros setup Hl. unfold snapshot_after.
    destruct (run me setup new_future) as [r o| |] eqn:Hrun; [|done|done].
    by rewrite run_with_lock, run_lockless by by eapply Hl. }
  unfold snapshot_after.
  split; [|split; [|split; [|split]]].
  - intros v. rewrite run_set_result by done.
    exact (Hboth (mkFuture "FINISHED" v VNone None []) eq_refl).
  - intros e. rewrite run_set_exception by done.
    exact (Hboth (mkFuture "FINISHED" VNone e None []) eq_refl).
  - rewrite run_cancel by done.
    exact (Hboth (mkFuture "CANCELLED" VNone VNone None []) eq_refl).
  - exact (Hboth new_future eq_refl).
  - unfold states.
    constructor; [|constructor; [|constructor; [|constructor; [|constructor]]]];
      cbn [snd]; apply Hsame; intros r o.
    + rewrite run_set_result by done. by intros [= _ <-].
    + rewrite run_set_exception by done. by intros [= _ <-].
    + rewrite run_cancel by done. by intros [= _ <-].
    + by intros [= _ <-].
Qed.

End snapshot_extras.

(** * Snapshots among arbitrary threads *)

Section thread_extras.

Lemma reader_step (i : nat) (c c' : config) (p : prog) :
  disciplined unfinished c → c.2 !! i = Some p → reads_final p c.1 →
  step c c' →
  frozen c.1 c'.1 ∧ ∃ p', c'.2 !! i = Some p' ∧ reads_final p' c'.1.
Proof.
  intros Hd Hi Hr Hstep.
  destruct Hstep as [j o o' ts q q' Hj Ht]. cbn [fst snd] in *.
  assert (frozen o o') as Hf.
  { eapply tstep_frozen; [apply (Hd j q Hj) | exact Ht]. }
  split; [done|].
  destruct (decide (i = j)) as [-> | Hne].
  - assert (q = p) as -> by congruence. exists q'. split.
    + apply list_lookup_insert_eq. by eapply lookup_lt_Some.
    + by eapply reads_final_tstep.
  - exists p. rewrite list_lookup_insert_ne by done. split; [done|].
    by eapply reads_final_frozen.
Qed.

Lemma reader_steps (i : nat) (c c' : config) (p : prog) :
  rtc step c c' →
  disciplined unfinished c → c.2 !! i = Some p → reads_final p c.1 →
  disciplined unfinished c' ∧ frozen c.1 c'.1
  ∧ ∃ p', c'.2 !! i = Some p' ∧ reads_final p' c'.1.
Proof.
  intros Hsteps. revert p.
  induction Hsteps as [c | c c1 c' Hstep _ IH]; intros p Hd Hi Hr.
  - split; [done|]. split; [apply frozen_refl|]. by exists p.
  - destruct (reader_step i c c1 p Hd Hi Hr Hstep) as (Hf & p1 & Hi1 & Hr1).
    pose proof (disciplined_step unfinished c c1 Hd Hstep) as Hd1.
    destruct (IH p1 Hd1 Hi1 Hr1) as (Hd' & Hf' & Hp').
    split; [done|]. split; [by eapply frozen_trans|done].
Qed.

(** X4.  The writers need not be [set_result], [set_exception] and
    [cancel]: among threads of any code that store only under the lock and
    never into a finished future, a finished snapshot
    [(True, False, v, e)] returned by either function is the state and
    payload of the future when it is returned and at any later time. *)
Theorem finished_snapshot_final_among_any_writers
    (i : nat) (f : prog) (o0 o1 o2 : Future) (ts0 ts1 ts2 : list prog)
    (v e : value) :
  f = _get_snapshot_with_lock ∨ f = _get_snapshot_lockless_finished →
  disciplined unfinished (o0, ts0) →
  ts0 !! i = Some f →
  rtc step (o0, ts0) (o1, ts1) →
  ts1 !! i = Some (Return (snapshot true false v e)) →
  rtc step (o1, ts1) (o2, ts2) →
  (_state o1 = "FINISHED" ∧ _result o1 = v ∧ _exception o1 = e)
  ∧ (_state o2 = "FINISHED" ∧ _result o2 = v ∧ _exception o2 = e).
Proof.
  intros Hf Hd Hi Hrun1 Hret Hrun2.
  assert (reads_final f o0) as Hr.
  { apply api_call_reads_final. destruct Hf as [-> | ->]; constructor. }
  destruct (reader_steps i _ _ f Hrun1 Hd Hi Hr) as (Hd1 & _ & p1 & Hi1 & Hr1).
  cbn [fst snd] in *.
  assert (p1 = Return (snapshot true false v e)) as -> by congruence.
  cbn [reads_final] in Hr1.
  destruct (Hr1 v e eq_refl) as (Hs1 & Hv1 & He1).
  split; [done|].
  destruct (reader_steps i _ _ _ Hrun2 Hd1 Hi1 Hr1) as (_ & Hfr & _).
  cbn [fst] in Hfr. destruct (Hfr Hs1) as (? & ? & ?).
  split; [done|]. split; congruence.
Qed.

Lemma finished_snapshot_final_among_any_writers_witness :
  let o1 := mkFuture "FINISHED" (VInt 42) VNone None [] in
  let ts1 := [Return (snapshot true false (VInt 42) VNone); Return VNone] in
  rtc step (new_future, [_get_snapshot_lockless_finished; set_result (VInt 42)])
    (o1, ts1)
  ∧ _state o1 = "FINISHED" ∧ _result o1 = VInt 42 ∧ _exception o1 = VNone.
Proof.
  intros o1 ts1.
  assert (rtc step
            (new_future,
             [_get_snapshot_lockless_finished; set_result (VInt 42)])
            (o1, ts1)) as Hrun.
  { apply (run_schedule_steps [1; 1; 1; 1; 1; 0; 0; 0]). reflexivity. }
  split; [exact Hrun|].
  apply (finished_snapshot_final_among_any_writers 0
           _get_snapshot_lockless_finished new_future o1 o1
           [_get_snapshot_lockless_finished; set_result (VInt 42)] ts1 ts1
           (VInt 42) VNone).
  - by right.
  - apply api_pool_publish_once; [done|].
    constructor; [constructor | constructor; [constructor | constructor]].
  - reflexivity.
  - exact Hrun.
  - reflexivity.
  - apply rtc_refl.
Defined.

(** X5.  The snapshot that always locks is linearizable among threads of
    any code that store only under the lock: whatever it returns, in
    whatever interleaving, is the snapshot of the future as it was at one
    moment of the run, the moment the call took the lock, at which no
    thread was in a [with] block. *)
Theorem with_lock_snapshot_is_linearizable
    (i : nat) (o0 o2 : Future) (ts0 ts2 : list prog) (r : value) :
  disciplined lock_only (o0, ts0) →
  ts0 !! i = Some _get_snapshot_with_lock →
  rtc step (o0, ts0) (o2, ts2) →
  ts2 !! i = Some (Return r) →
  ∃ o1 ts1,
    rtc step (o0, ts0) (o1, ts1) ∧ rtc step (o1, ts1) (o2, ts2)
    ∧ _condition o1 = None
    ∧ ts1 !! i = Some _get_snapshot_with_lock
    ∧ r = snapshot_of o1.
Proof.
  intros Hd Hi Hrun Hret.
  assert (∀ c, rtc step (o0, ts0) c →
            disciplined lock_only c
            ∧ (c.2 !! i = Some _get_snapshot_with_lock
               ∨ ∃ o1 ts1,
                   rtc step (o0, ts0) (o1, ts1) ∧ rtc step (o1, ts1) c
                   ∧ _condition o1 = None
                   ∧ ts1 !! i = Some _get_snapshot_with_lock
                   ∧ snapshot_pending i (snapshot_of o1) c)) as Hinv.
  { apply rtc_ind_r; [split; [done|]; by left|].
    intros c c' Hrun' Hstep [Hdc IH].
    pose proof (disciplined_step lock_only c c' Hdc Hstep) as Hdc'.
    split; [done|].
    destruct IH as [Hwait | (o1 & ts1 & H01 & H1c & Hl1 & Hi1 & Hpend)].
    - pose proof Hstep as Hstep'.
      destruct Hstep as [j o o' ts q q' Hj Ht]. cbn [fst snd] in *.
      destruct (decide (j = i)) as [-> | Hne].
      + right. assert (q = _get_snapshot_with_lock) as -> by congruence.
        unfold _get_snapshot_with_lock, with_condition in Ht.
        cbn [tstep] in Ht.
        destruct (_condition o) eqn:Hl; [done|].
        injection Ht as <- <-.
        exists o, ts. split; [done|]. split; [by apply rtc_once|].
        split; [done|]. split; [done|].
        split; [done|]. left. cbn [fst snd]. split; [done|].
        exists (on_exit locked_snapshot). split.
        * apply list_lookup_insert_eq. by eapply lookup_lt_Some.
        * exact (locked_snapshot_returns (set_condition (Some i) o)).
      + left. by rewrite list_lookup_insert_ne.
    - right. exists o1, ts1. split; [done|]. split; [by eapply rtc_r|].
      split; [done|]. split; [done|].
      by eapply snapshot_pending_step. }
  destruct (Hinv _ Hrun)
    as [_ [Hwait | (o1 & ts1 & H01 & H12 & Hl1 & Hi1 & _ & Hpend)]].
  { cbn [snd] in Hwait. rewrite Hret in Hwait. done. }
  exists o1, ts1. repeat (split; [done|]).
  cbn [fst snd] in Hpend.
  destruct Hpend as [(_ & p & Hp & Hru) | Hdone].
  - assert (p = Return r) as -> by congruence. done.
  - congruence.
Qed.

Lemma with_lock_snapshot_is_linearizable_witness :
  let o2 := mkFuture "FINISHED" (VInt 42) VNone None [] in
  let ts0 := [_get_snapshot_with_lock; set_result (VInt 42)] in
  let ts2 := [Return (snapshot false false VNone VNone); Return VNone] in
  rtc step (new_future, ts0) (o2, ts2)
  ∧ ∃ o1 ts1,
      rtc step (new_future, ts0) (o1, ts1) ∧ rtc step (o1, ts1) (o2, ts2)
      ∧ _condition o1 = None
      ∧ snapshot false false VNone VNone = snapshot_of o1.
Proof.
  intros o2 ts0 ts2.
  assert (rtc step (new_future, ts0) (o2, ts2)) as Hrun.
  { apply (run_schedule_steps [0; 0; 0; 0; 1; 1; 1; 1; 1]). reflexivity. }
  split; [exact Hrun|].
  destruct (with_lock_snapshot_is_linearizable 0 new_future o2 ts0 ts2
              (snapshot false false VNone VNone))
    as (o1 & ts1 & H1 & H2 & H3 & _ & H5).
  - apply api_pool_disciplined; [done|].
    constructor; [constructor | constructor; [constructor | constructor]].
  - reflexivity.
  - exact Hrun.
  - reflexivity.
  - by exists o1, ts1.
Defined.

(** X6.  The lock alone does not make the lockless snapshot safe: against
    a writer that holds the lock but stores the state before the result,
    there is an interleaving in which the lockless snapshot returns
    [(True, False, None, None)] for a future that ends up finished with the
    result [v].  That writer respects the lock and stores into a finished
    future. *)
Theorem lockless_torn_by_state_first_writer (v : value) :
  let ts0 := [_get_snapshot_lockless_finished; state_first v] in
  disciplined lock_only (new_future, ts0)
  ∧ ¬ disciplined unfinished (new_future, ts0)
  ∧ rtc step (new_future, ts0)
      (mkFuture "FINISHED" v VNone None [],
       [Return (snapshot true false VNone VNone); Return VNone]).
Proof.
  intros ts0. split; [|split].
  - intros j p Hj. unfold thread_ok. cbn [fst snd] in *.
    rewrite bool_decide_eq_false_2 by done.
    destruct j as [|[|j]]; cbn in Hj; [| |done]; injection Hj as <-.
    + apply (discipline_weaken unfinished lock_only); [done|].
      apply api_call_outside. constructor.
    + cbn. done.
  - intros Hd. specialize (Hd 1 (state_first v) eq_refl).
    unfold thread_ok in Hd. cbn [fst] in Hd.
    rewrite bool_decide_eq_false_2 in Hd by done.
    cbn in Hd. destruct (Hd new_future) as (_ & Hg & _). by apply Hg.
  - apply (run_schedule_steps [1; 1; 0; 0; 0; 1; 1]). reflexivity.
Qed.

End thread_extras.

(** * The workers of the contention test *)

Section worker_extras.

Lemma same_fields_refl (o : Future) : same_fields o o.
Proof. done. Qed.

Lemma same_fields_trans (o1 o2 o3 : Future) :
  same_fields o1 o2 → same_fields o2 o3 → same_fields o1 o3.
Proof. unfold same_fields. congruence. Qed.

Lemma same_fields_eq (o o' : Future) :
  same_fields o o' → _condition o' = _condition o → o' = o.
Proof.
  destruct o, o'. unfold same_fields, set_condition. cbn. congruence.
Qed.

Lemma same_fields_proj (o o' : Future) :
  same_fields o o' →
  _state o' = _state o ∧ _result o' = _result o
  ∧ _exception o' = _exception o.
Proof.
  destruct o, o'. unfold same_fields, set_condition. cbn.
  intros [= -> -> -> ->]. done.
Qed.

Lemma steps_left_same_fields (p : prog) (o o' : Future) :
  same_fields o o' → steps_left p o' = steps_left p o.
Proof.
  revert o o'.
  induction p as [| |k IH|k IH|k IH|s k IH|v k IH|v k IH|k IH|k IH];
    intros o o' Hsame; cbn [steps_left]; try done;
    try (destruct (same_fields_proj o o' Hsame) as (Hs & Hr & He);
         rewrite ?Hs, ?Hr, ?He; f_equal; by apply IH);
    f_equal; apply IH; destruct o, o'; revert Hsame;
    unfold same_fields, set_condition, set_state, set_result_field,
      set_exception_field; cbn; congruence.
Qed.

Lemma returns_in_weaken (P Q : value → Prop) (p : prog) :
  (∀ r, P r → Q r) → returns_in P p → returns_in Q p.
Proof.
  intros HPQ.
  induction p as [| |k IH|k IH|k IH|s k IH|v k IH|v k IH|k IH|k IH];
    cbn [returns_in]; auto.
Qed.

Lemma bind_returns_in (P Q : value → Prop) (p : prog) (f : value → prog) :
  returns_in P p → (∀ r, P r → returns_in Q (f r)) →
  returns_in Q (bind p f).
Proof.
  intros Hp Hf.
  induction p as [| |k IH|k IH|k IH|s k IH|v k IH|v k IH|k IH|k IH];
    cbn [returns_in bind] in *; auto.
Qed.

Lemma bind_discipline (guard : Future → Prop) (p : prog) (f : value → prog) :
  (∀ r, outside_ok guard (f r)) →
  (outside_ok guard p → outside_ok guard (bind p f))
  ∧ (∀ o, inside_ok guard p o → inside_ok guard (bind p f) o).
Proof.
  intros Hf.
  induction p as [| |k IH|k IH|k IH|s k IH|v k IH|v k IH|k IH|k IH];
    cbn [outside_ok inside_ok bind]; (split; [|intros o]); try done;
    try (intros Hk x; by apply IH);
    try (intros [Hg Hk]; split; [done|]; by apply IH);
    try apply IH.
Qed.

Lemma steps_left_bind (P : value → Prop) (p q : prog) (o : Future) :
  returns_in P p →
  steps_left (bind p (λ _, q)) o = steps_left p o + steps_left q o.
Proof.
  induction p as [| |k IH|k IH|k IH|s k IH|v k IH|v k IH|k IH|k IH];
    cbn [returns_in bind steps_left]; intros Hp; try done;
    cbn [Nat.add]; f_equal; by apply IH.
Qed.

Lemma locked_snapshot_returns_in :
  returns_in is_snapshot (on_exit locked_snapshot).
Proof.
  unfold locked_snapshot. cbn [on_exit returns_in]. intros s.
  destruct (String.eqb s "FINISHED"); cbn [on_exit returns_in].
  - intros v e. by eexists _, _, _, _.
  - intros s'.
    match goal with
    | |- context [if ?b then _ else _] => destruct b
    end; cbn [on_exit returns_in]; by eexists _, _, _, _.
Qed.

Lemma snapshot_returns_in (f : prog) :
  f = _get_snapshot_with_lock ∨ f = _get_snapshot_lockless_finished →
  returns_in is_snapshot f.
Proof.
  intros [-> | ->].
  - exact locked_snapshot_returns_in.
  - unfold _get_snapshot_lockless_finished. cbn [returns_in]. intros s.
    destruct (String.eqb s "FINISHED"); cbn [returns_in].
    + intros v e. by eexists _, _, _, _.
    + exact locked_snapshot_returns_in.
Qed.

Lemma snapshot_outside_ok (f : prog) :
  f = _get_snapshot_with_lock ∨ f = _get_snapshot_lockless_finished →
  outside_ok lock_only f.
Proof.
  intros Hf. apply (discipline_weaken unfinished lock_only); [done|].
  apply api_call_outside. destruct Hf as [-> | ->]; constructor.
Qed.

Lemma worker_returns_none (f : prog) (n : nat) :
  f = _get_snapshot_with_lock ∨ f = _get_snapshot_lockless_finished →
  returns_none (worker f n).
Proof.
  intros Hf. induction n as [|n IH]; cbn [worker]; [done|].
  apply (bind_returns_in is_snapshot); [by apply snapshot_returns_in|].
  intros _ _. exact IH.
Qed.

Lemma worker_outside_ok (f : prog) (n : nat) :
  f = _get_snapshot_with_lock ∨ f = _get_snapshot_lockless_finished →
  outside_ok lock_only (worker f n).
Proof.
  intros Hf. induction n as [|n IH]; cbn [worker]; [done|].
  apply bind_discipline; [done|]. by apply snapshot_outside_ok.
Qed.

Lemma worker_steps_left (f : prog) (n : nat) (o : Future) :
  f = _get_snapshot_with_lock ∨ f = _get_snapshot_lockless_finished →
  steps_left (worker f n) o = n * steps_left f o.
Proof.
  intros Hf. induction n as [|n IH]; cbn [worker]; [done|].
  rewrite (steps_left_bind is_snapshot) by by apply snapshot_returns_in.
  rewrite IH. cbn [Nat.mul]. done.
Qed.

Lemma snapshot_worker_impl (p : prog) :
  snapshot_worker p →
  ∃ f n, p = worker f n
    ∧ (f = _get_snapshot_with_lock ∨ f = _get_snapshot_lockless_finished).
Proof. intros [n | n]; eexists _, n; split; auto. Qed.

Lemma sum_list_insert (l : list nat) (i x y : nat) :
  l !! i = Some x → sum_list (<[i := y]> l) + x = sum_list l + y.
Proof.
  revert i. induction l as [|a l IH]; intros [|i] Hi; simpl in *; try done.
  - injection Hi as ->. lia.
  - specialize (IH i Hi). lia.
Qed.

Lemma sum_list_zero (l : list nat) :
  sum_list l = 0 ↔ Forall (λ n, n = 0) l.
Proof.
  induction l as [|a l IH]; simpl; [done|].
  rewrite Forall_cons. split.
  - intros Hs. split; [lia|]. apply IH. lia.
  - intros [-> Hl]. apply IH in Hl. lia.
Qed.

Lemma sum_list_pos (l : list nat) :
  0 < sum_list l → ∃ i x, l !! i = Some x ∧ 0 < x.
Proof.
  induction l as [|a l IH]; simpl; [lia|]. intros Hpos.
  destruct (decide (0 < a)) as [Ha | Ha].
  - by exists 0, a.
  - destruct IH as (i & x & Hi & Hx); [lia|]. by exists (S i), x.
Qed.

Lemma tstep_returns_none (i : nat) (o o' : Future) (p p' : prog) :
  returns_none p → thread_ok lock_only o i p →
  tstep i o p = Some (o', p') →
  returns_none p' ∧ same_fields o o'.
Proof.
  unfold returns_none, thread_ok.
  destruct p as [| |k|k|k|s k|v k|v k|k|k];
    cbn [returns_in tstep]; intros Hp Hok Ht; try done;
    try (injection Ht as <- <-; by split).
  - destruct (_condition o); [done|]. injection Ht as <- <-. by split.
  - destruct (bool_decide (_condition o = Some i)).
    + injection Ht as <- <-. by split.
    + done.
Qed.

Lemma tstep_steps_left (i : nat) (o o' : Future) (p p' : prog) :
  thread_ok lock_only o i p →
  tstep i o p = Some (o', p') →
  S (steps_left p' o') = steps_left p o.
Proof.
  unfold thread_ok.
  destruct p as [| |k|k|k|s k|v k|v k|k|k];
    cbn [tstep steps_left]; intros Hok Ht; try done;
    try (injection Ht as <- <-; done).
  - destruct (_condition o); [done|]. injection Ht as <- <-.
    f_equal. by apply steps_left_same_fields.
  - destruct (bool_decide (_condition o = Some i)).
    + injection Ht as <- <-. f_equal. by apply steps_left_same_fields.
    + done.
Qed.

Lemma workers_inv_step (c c' : config) :
  workers_inv c → step c c' →
  workers_inv c' ∧ same_fields c.1 c'.1
  ∧ S (total_steps c') = total_steps c
  ∧ length c'.2 = length c.2.
Proof.
  intros (Hd & Hn & Hl) Hstep.
  pose proof (disciplined_step lock_only c c' Hd Hstep) as Hd'.
  destruct Hstep as [i o o' ts p p' Hi Ht]. cbn [fst snd] in *.
  pose proof (Hd i p Hi) as Hok. cbn [fst] in Hok.
  rewrite Forall_lookup in Hn.
  destruct (tstep_returns_none i o o' p p' (Hn i p Hi) Hok Ht)
    as [Hn' Hsame].
  pose proof (lookup_lt_Some _ _ _ Hi) as Hlt.
  unfold workers_inv. cbn [fst snd].
  split; [|split; [done|split]].
  - split; [done|]. split.
    + apply Forall_lookup. intros j q Hj.
      destruct (decide (i = j)) as [<- | Hne].
      * rewrite list_lookup_insert_eq in Hj by done. by injection Hj as <-.
      * rewrite list_lookup_insert_ne in Hj by done. by eapply Hn.
    + intros j Hj. rewrite length_insert.
      destruct (tstep_lock i o o' p p' Ht) as [He | [He | He]].
      * apply Hl. congruence.
      * assert (j = i) as -> by congruence. done.
      * congruence.
  - unfold total_steps. cbn [fst snd].
    rewrite list_fmap_insert.
    assert ((λ q, steps_left q o') <$> ts = (λ q, steps_left q o) <$> ts)
      as ->.
    { apply list_fmap_ext. intros ? q _. by apply steps_left_same_fields. }
    pose proof (sum_list_insert ((λ q, steps_left q o) <$> ts) i
                  (steps_left p o) (steps_left p' o')) as Hsum.
    rewrite list_lookup_fmap, Hi in Hsum. specialize (Hsum eq_refl).
    pose proof (tstep_steps_left i o o' p p' Hok Ht). lia.
  - apply length_insert.
Qed.

Lemma workers_inv_nsteps (m : nat) (c c' : config) :
  workers_inv c → nsteps step m c c' →
  workers_inv c' ∧ same_fields c.1 c'.1
  ∧ m + total_steps c' = total_steps c
  ∧ length c'.2 = length c.2.
Proof.
  intros Hinv Hsteps.
  induction Hsteps as [c | m c c1 c' Hstep _ IH].
  - split; [done|]. split; [apply same_fields_refl|]. done.
  - destruct (workers_inv_step c c1 Hinv Hstep) as (Hinv1 & Hs1 & Ht1 & Hl1).
    destruct (IH Hinv1) as (Hinv' & Hs' & Ht' & Hl').
    split; [done|]. split; [by eapply same_fields_trans|].
    split; [lia | congruence].
Qed.

Lemma workers_progress (c : config) :
  workers_inv c → 0 < total_steps c → ∃ c', step c c'.
Proof.
  destruct c as [o ts]. intros (Hd & Hn & Hl) Hpos. cbn [fst snd] in *.
  assert (∃ i p, ts !! i = Some p ∧ 0 < steps_left p o
                 ∧ (∀ j, _condition o = Some j → j = i)) as (i & p & Hi & Hp & Hown).
  { destruct (_condition o) as [j|] eqn:Hlock.
    - destruct (lookup_lt_is_Some_2 ts j (Hl j eq_refl)) as [p Hj].
      exists j, p. split; [done|]. split; [|by intros ? [= ->]].
      pose proof (Hd j p Hj) as Hok. unfold thread_ok in Hok.
      cbn [fst] in Hok. rewrite bool_decide_eq_true_2 in Hok by done.
      destruct p; cbn in Hok |- *; try done; lia.
    - unfold total_steps in Hpos. cbn [fst snd] in Hpos.
      destruct (sum_list_pos _ Hpos) as (i & x & Hi & Hx).
      apply list_lookup_fmap_Some in Hi as (p & -> & Hi).
      exists i, p. split; [done|]. split; [lia | done]. }
  pose proof (Hd i p Hi) as Hok. unfold thread_ok in Hok. cbn [fst] in Hok.
  assert (∃ o' p', tstep i o p = Some (o', p')) as (o' & p' & Ht).
  { destruct p as [| |k|k|k|s k|v k|v k|k|k]; cbn [steps_left tstep] in *;
      try lia; try by eexists _, _.
    - destruct (_condition o) as [j|] eqn:Hlock; [|by eexists _, _].
      rewrite (Hown j eq_refl), bool_decide_eq_true_2 in Hok by done. done.
    - destruct (bool_decide (_condition o = Some i)); by eexists _, _. }
  eexists. by eapply step_thread.
Qed.

Lemma workers_done (c : config) :
  workers_inv c → total_steps c = 0 →
  _condition c.1 = None ∧ Forall (λ p, p = Return VNone) c.2.
Proof.
  destruct c as [o ts]. intros (Hd & Hn & Hl) Hz. cbn [fst snd] in *.
  unfold total_steps in Hz. cbn [fst snd] in Hz.
  rewrite sum_list_zero, Forall_fmap in Hz.
  assert (Forall (λ p, p = Return VNone) ts) as Hall.
  { rewrite Forall_lookup in Hn, Hz |- *. intros i p Hi.
    specialize (Hn i p Hi). specialize (Hz i p Hi). cbn in Hz.
    unfold returns_none in Hn. destruct p; cbn in *; try done. by subst. }
  split; [|done].
  destruct (_condition o) as [j|] eqn:Hlock; [|done].
  destruct (lookup_lt_is_Some_2 ts j (Hl j eq_refl)) as [p Hj].
  pose proof (Hd j p Hj) as Hok. unfold thread_ok in Hok. cbn [fst] in Hok.
  rewrite bool_decide_eq_true_2 in Hok by done.
  rewrite Forall_lookup in Hall. rewrite (Hall j p Hj) in Hok. done.
Qed.

Lemma workers_run_to_end (n : nat) (c : config) :
  workers_inv c → total_steps c = n →
  ∃ c', nsteps step n c c' ∧ total_steps c' = 0.
Proof.
  revert c. induction n as [|n IH]; intros c Hinv Hn.
  - exists c. split; [constructor | done].
  - destruct (workers_progress c Hinv) as [c1 Hstep]; [lia|].
    destruct (workers_inv_step c c1 Hinv Hstep) as (Hinv1 & _ & Ht1 & _).
    destruct (IH c1 Hinv1) as (c' & Hsteps & Hz); [lia|].
    exists c'. split; [by eapply nsteps_l | done].
Qed.

Lemma workers_inv_init (o : Future) (ts : list prog) :
  _condition o = None → Forall snapshot_worker ts → workers_inv (o, ts).
Proof.
  intros Hl Hts. rewrite Forall_lookup in Hts.
  split; [|split]; cbn [fst snd].
  - intros i p Hi. unfold thread_ok. cbn [fst snd] in *.
    rewrite bool_decide_eq_false_2 by congruence.
    destruct (snapshot_worker_impl p (Hts i p Hi)) as (f & n & -> & Hf).
    by apply worker_outside_ok.
  - apply Forall_lookup. intros i p Hi.
    destruct (snapshot_worker_impl p (Hts i p Hi)) as (f & n & -> & Hf).
    by apply worker_returns_none.
  - congruence.
Qed.

Lemma workers_final (n : nat) (o0 : Future) (c : config) :
  workers_inv c → total_steps c = 0 →
  _condition o0 = None → same_fields o0 c.1 → length c.2 = n →
  c = (o0, replicate n (Return VNone)).
Proof.
  intros Hinv Hz Hl0 Hsame Hlen.
  destruct (workers_done c Hinv Hz) as [Hl Hall].
  destruct c as [o ts]. cbn [fst snd] in *. f_equal.
  - apply same_fields_eq; [done | congruence].
  - symmetry. apply replicate_as_Forall. split; [done|].
    eapply Forall_impl; [exact Hall|]. by intros ? ->.
Qed.

Lemma total_steps_returned (o : Future) (n : nat) :
  total_steps (o, replicate n (Return VNone)) = 0.
Proof.
  unfold total_steps. cbn [fst snd]. apply sum_list_zero.
  rewrite Forall_fmap. by apply Forall_replicate.
Qed.

(** X7.  Workers, of either implementation and of any numbers of
    iterations, that share a future whose lock is free: every interleaving
    leaves the state, the result and the exception of the future as they
    were; the actions still to be taken go down by one at each step, so that
    no run is longer than the actions at the start; as long as a worker has
    not returned some thread can move (no deadlock on the lock); and when
    none is left every worker has returned [None], no lock is held and the
    future is the one the workers started with. *)
Theorem workers_terminate_without_deadlock
    (m : nat) (o0 o : Future) (ts0 ts : list prog) :
  _condition o0 = None →
  Forall snapshot_worker ts0 →
  nsteps step m (o0, ts0) (o, ts) →
  same_fields o0 o
  ∧ m + total_steps (o, ts) = total_steps (o0, ts0)
  ∧ (0 < total_steps (o, ts) → ∃ c', step (o, ts) c')
  ∧ (total_steps (o, ts) = 0 →
       o = o0 ∧ ts = replicate (length ts0) (Return VNone))
  ∧ nsteps step (total_steps (o, ts)) (o, ts)
      (o0, replicate (length ts0) (Return VNone)).
Proof.
  intros Hl Hts Hrun.
  pose proof (workers_inv_init o0 ts0 Hl Hts) as Hinv0.
  destruct (workers_inv_nsteps m _ _ Hinv0 Hrun) as (Hinv & Hsame & Hm & Hlen).
  cbn [fst snd] in *.
  split; [done|]. split; [done|]. split; [by apply workers_progress|].
  split.
  - intros Hz.
    pose proof (workers_final (length ts0) o0 (o, ts) Hinv Hz Hl Hsame Hlen)
      as Heq.
    by injection Heq as -> ->.
  - destruct (workers_run_to_end (total_steps (o, ts)) (o, ts) Hinv eq_refl)
      as (c' & Hsteps & Hz).
    destruct (workers_inv_nsteps _ _ _ Hinv Hsteps) as (Hinv' & Hsame' & _ & Hlen').
    cbn [fst snd] in *.
    rewrite <- (workers_final (length ts0) o0 c' Hinv' Hz Hl); [done| |congruence].
    by eapply same_fields_trans.
Qed.

Lemma workers_terminate_without_deadlock_witness :
  let o0 := mkFuture "FINISHED" (VInt 42) VNone None [] in
  let ts0 := [worker _get_snapshot_with_lock 1;
              worker _get_snapshot_lockless_finished 2] in
  nsteps step 0 (o0, ts0) (o0, ts0)
  ∧ total_steps (o0, ts0) = 11
  ∧ nsteps step 11 (o0, ts0) (o0, [Return VNone; Return VNone]).
Proof.
  intros o0 ts0.
  assert (nsteps step 0 (o0, ts0) (o0, ts0)) as Hrun by constructor.
  split; [exact Hrun|]. split; [reflexivity|].
  refine (proj2 (proj2 (proj2 (proj2
    (workers_terminate_without_deadlock 0 o0 o0 ts0 ts0 eq_refl _ Hrun))))).
  constructor; [apply (worker_with_lock 1)|].
  constructor; [apply (worker_lockless 2) | constructor].
Defined.

(** X8.  The cost of the contention test in atomic actions on the future
    (attribute loads, lock acquisitions and releases).  One call of the
    snapshot that always locks takes 5 actions on a finished future and 4
    otherwise; one call of the lockless snapshot takes 3 on a finished
    future and 5 otherwise.  The four workers of [concurrent_test] take, in
    every interleaving, [4 * iterations] times the cost of a call and no
    more, and they have all returned exactly when that many actions have
    been taken. *)
Theorem concurrent_test_action_count
    (f : prog) (iterations m : nat) (o0 o : Future) (ts : list prog) :
  _condition o0 = None →
  f = _get_snapshot_with_lock ∨ f = _get_snapshot_lockless_finished →
  nsteps step m (o0, concurrent_test f iterations) (o, ts) →
  steps_left _get_snapshot_with_lock o0
    = (if String.eqb (_state o0) "FINISHED" then 5 else 4)
  ∧ steps_left _get_snapshot_lockless_finished o0
    = (if String.eqb (_state o0) "FINISHED" then 3 else 5)
  ∧ m + total_steps (o, ts) = 4 * iterations * steps_left f o0
  ∧ (m = 4 * iterations * steps_left f o0
     ↔ o = o0 ∧ ts = replicate 4 (Return VNone)).
Proof.
  intros Hl Hf Hrun.
  assert (steps_left (on_exit locked_snapshot) o0
          = if String.eqb (_state o0) "FINISHED" then 4 else 3) as Hlocked.
  { unfold locked_snapshot. cbn [on_exit steps_left].
    destruct (String.eqb (_state o0) "FINISHED"); cbn [on_exit steps_left];
      [done|].
    match goal with
    | |- context [if ?b then _ else _] => by destruct b
    end. }
  split; [|split].
  { unfold _get_snapshot_with_lock, with_condition. cbn [steps_left].
    rewrite Hlocked. by destruct (String.eqb (_state o0) "FINISHED"). }
  { unfold _get_snapshot_lockless_finished. cbn [steps_left].
    destruct (String.eqb (_state o0) "FINISHED") eqn:Hs; [done|].
    unfold with_condition. cbn [steps_left]. by rewrite Hlocked. }
  assert (Forall snapshot_worker (concurrent_test f iterations)) as Hts.
  { unfold concurrent_test. apply Forall_replicate.
    destruct Hf as [-> | ->]; constructor. }
  assert (total_steps (o0, concurrent_test f iterations)
          = 4 * iterations * steps_left f o0) as Htotal.
  { unfold total_steps, concurrent_test. cbn [fst snd replicate fmap list_fmap].
    simpl sum_list_with. rewrite worker_steps_left by done. unfold id. lia. }
  destruct (workers_inv_nsteps m _ _ (workers_inv_init _ _ Hl Hts) Hrun)
    as (Hinv & Hsame & Hm & Hlen).
  cbn [fst snd] in *. split; [lia|]. split.
  - intros Hmax.
    assert (total_steps (o, ts) = 0) as Hz by lia.
    pose proof (workers_final 4 o0 (o, ts) Hinv Hz Hl Hsame) as Heq.
    assert ((o, ts) = (o0, replicate 4 (Return VNone))) as [= -> ->]; [|done].
    apply Heq. cbn [snd]. rewrite Hlen. unfold concurrent_test.
    apply length_replicate.
  - intros [-> ->]. rewrite (total_steps_returned o0 4) in Hm. lia.
Qed.

Lemma concurrent_test_action_count_witness :
  let o0 := mkFuture "FINISHED" (VInt 42) VNone None [] in
  steps_left _get_snapshot_with_lock o0 = 5
  ∧ steps_left _get_snapshot_lockless_finished o0 = 3
  ∧ 0 + total_steps (o0, concurrent_test _get_snapshot_lockless_finished 2)
    = 4 * 2 * steps_left _get_snapshot_lockless_finished o0.
Proof.
  intros o0.
  destruct (concurrent_test_action_count _get_snapshot_lockless_finished
              2 0 o0 o0 (concurrent_test _get_snapshot_lockless_finished 2))
    as (H1 & H2 & H3 & _).
  - reflexivity.
  - by right.
  - apply nsteps_O.
  - split; [exact H1|]. split; [exact H2 | exact H3].
Defined.

Lemma lock_free_on_bind (P : value → Prop) (o : Future) (p : prog)
    (f : value → prog) :
  lock_free_on o p → (∀ r, lock_free_on o (f r)) →
  lock_free_on o (bind p f).
Proof.
  intros Hp Hf.
  induction p as [| |k IH|k IH|k IH|s k IH|v k IH|v k IH|k IH|k IH];
    cbn [lock_free_on bind] in *; auto.
Qed.

Lemma lockless_lock_free (o : Future) :
  _state o = "FINISHED" → lock_free_on o _get_snapshot_lockless_finished.
Proof.
  intros Hs. unfold _get_snapshot_lockless_finished.
  cbn [lock_free_on]. rewrite Hs. done.
Qed.

Lemma worker_lock_free (o : Future) (n : nat) :
  _state o = "FINISHED" →
  lock_free_on o (worker _get_snapshot_lockless_finished n).
Proof.
  intros Hs. induction n as [|n IH]; cbn [worker]; [done|].
  apply (lock_free_on_bind is_snapshot); [by apply lockless_lock_free|done].
Qed.

Lemma lock_free_tstep (i : nat) (o : Future) (p : prog) :
  lock_free_on o p → returns_none p →
  p = Return VNone
  ∨ ∃ p', tstep i o p = Some (o, p') ∧ lock_free_on o p' ∧ returns_none p'
      ∧ S (steps_left p' o) = steps_left p o.
Proof.
  unfold returns_none.
  destruct p as [| |k|k|k|s k|v k|v k|k|k];
    cbn [lock_free_on returns_in tstep steps_left]; intros Hp Hn; try done;
    [left; by subst | right; by eexists ..].
Qed.

Lemma lock_free_step (o : Future) (ts : list prog) (c' : config) :
  Forall (λ p, lock_free_on o p ∧ returns_none p) ts →
  step (o, ts) c' →
  c'.1 = o
  ∧ Forall (λ p, lock_free_on o p ∧ returns_none p) c'.2
  ∧ S (total_steps c') = total_steps (o, ts).
Proof.
  intros Hall Hstep. inversion Hstep as [i o1 o' ts1 p p' Hi Ht]; subst.
  rewrite Forall_lookup in Hall. destruct (Hall i p Hi) as [Hfree Hnone].
  destruct (lock_free_tstep i o p Hfree Hnone)
    as [-> | (p1 & Ht1 & Hfree1 & Hnone1 & Hcount)]; [done|].
  rewrite Ht1 in Ht. injection Ht as <- <-. cbn [fst snd].
  pose proof (lookup_lt_Some _ _ _ Hi) as Hlt.
  split; [done|]. split.
  - apply Forall_lookup. intros j q Hj.
    destruct (decide (i = j)) as [<- | Hne].
    + rewrite list_lookup_insert_eq in Hj by done. by injection Hj as <-.
    + rewrite list_lookup_insert_ne in Hj by done. by eapply Hall.
  - unfold total_steps. cbn [fst snd]. rewrite list_fmap_insert.
    pose proof (sum_list_insert ((λ q, steps_left q o) <$> ts) i
                  (steps_left p o) (steps_left p1 o)) as Hsum.
    rewrite list_lookup_fmap, Hi in Hsum. specialize (Hsum eq_refl). lia.
Qed.

Lemma lock_free_nsteps (m : nat) (c c' : config) :
  nsteps step m c c' →
  Forall (λ p, lock_free_on c.1 p ∧ returns_none p) c.2 →
  c'.1 = c.1
  ∧ Forall (λ p, lock_free_on c.1 p ∧ returns_none p) c'.2
  ∧ m + total_steps c' = total_steps c.
Proof.
  intros Hsteps.
  induction Hsteps as [c | m c c1 c' Hstep _ IH]; intros Hall; [done|].
  destruct c as [o ts]. cbn [fst snd] in *.
  destruct (lock_free_step o ts c1 Hall Hstep) as (Ho1 & Hall1 & Hcount).
  rewrite Ho1 in IH. destruct (IH Hall1) as (Ho' & Hall' & Hm).
  split; [done|]. split; [done | lia].
Qed.

(** X9.  Lockless workers on a finished future never wait: whoever holds
    the lock, and for ever if it must be, every worker that has not
    returned can take its next action; the workers take neither the lock
    nor any other action but loads, so that the future, its lock included,
    is never changed; and workers of [ns] iterations return after
    [3 * sum ns] actions in all, in every interleaving. *)
Theorem lockless_workers_never_wait
    (m : nat) (ns : list nat) (o0 o : Future) (ts : list prog) :
  _state o0 = "FINISHED" →
  nsteps step m (o0, worker _get_snapshot_lockless_finished <$> ns) (o, ts) →
  o = o0
  ∧ m + total_steps (o, ts) = 3 * sum_list ns
  ∧ (∀ i p, ts !! i = Some p →
       p = Return VNone
       ∨ ∃ p', tstep i o p = Some (o, p') ∧ lock_free_on o p')
  ∧ (m = 3 * sum_list ns → Forall (λ p, p = Return VNone) ts).
Proof.
  intros Hs Hrun.
  assert (Forall (λ p, lock_free_on o0 p ∧ returns_none p)
            (worker _get_snapshot_lockless_finished <$> ns)) as Hall0.
  { rewrite Forall_fmap. apply Forall_forall. intros n _. split.
    - by apply worker_lock_free.
    - apply worker_returns_none. by right. }
  assert (total_steps (o0, worker _get_snapshot_lockless_finished <$> ns)
          = 3 * sum_list ns) as Htotal.
  { clear Hrun Hall0.
    assert (steps_left _get_snapshot_lockless_finished o0 = 3) as Hcall.
    { unfold _get_snapshot_lockless_finished. cbn [steps_left].
      by rewrite Hs. }
    induction ns as [|n ns IH]; [done|].
    rewrite fmap_cons.
    change (steps_left (worker _get_snapshot_lockless_finished n) o0
            + total_steps
                (o0, worker _get_snapshot_lockless_finished <$> ns)
            = 3 * (n + sum_list ns)).
    rewrite IH, worker_steps_left, Hcall by by right. lia. }
  destruct (lock_free_nsteps m _ _ Hrun Hall0) as (Ho & Hall & Hm).
  cbn [fst snd] in *. subst o.
  split; [done|]. split; [lia|].
  rewrite Forall_lookup in Hall. split.
  - intros i p Hi. destruct (Hall i p Hi) as [Hfree Hnone].
    destruct (lock_free_tstep i o0 p Hfree Hnone)
      as [-> | (p' & Ht & Hfree' & _)]; [by left|].
    right. by exists p'.
  - intros Hmax. apply Forall_lookup. intros i p Hi.
    destruct (Hall i p Hi) as [Hfree Hnone].
    destruct (lock_free_tstep i o0 p Hfree Hnone)
      as [-> | (p' & _ & _ & _ & Hcount)]; [done|].
    assert (total_steps (o0, ts) = 0) as Hz by lia.
    unfold total_steps in Hz. cbn [fst snd] in Hz.
    rewrite sum_list_zero, Forall_fmap, Forall_lookup in Hz.
    specialize (Hz i p Hi). cbn in Hz. lia.
Qed.

Lemma lockless_workers_never_wait_witness :
  let o0 := mkFuture "FINISHED" (VInt 42) VNone (Some 7) [] in
  let ts := [Return VNone; worker _get_snapshot_lockless_finished 2] in
  nsteps step 3 (o0, worker _get_snapshot_lockless_finished <$> [1; 2])
    (o0, ts)
  ∧ 3 + total_steps (o0, ts) = 3 * sum_list [1; 2]
  ∧ tstep 0 o0 _get_snapshot_with_lock = None.
Proof.
  intros o0 ts.
  assert (nsteps step 3
            (o0, worker _get_snapshot_lockless_finished <$> [1; 2]) (o0, ts))
    as Hrun.
  { eapply nsteps_l; [by eapply (step_thread 0)|].
    eapply nsteps_l; [by eapply (step_thread 0)|].
    eapply nsteps_l; [by eapply (step_thread 0)|].
    apply nsteps_O. }
  split; [exact Hrun|]. split; [|reflexivity].
  exact (proj1 (proj2
    (lockless_workers_never_wait 3 [1; 2] o0 o0 ts eq_refl Hrun))).
Defined.

End worker_extras.

(** * The benchmark loops, for any number of handles *)

Section loop_extras.

Lemma heappush_append {A : Type} `{Lt A} (heap : list A) (item : A) :
  (∀ y, heap !! parent (length heap) = Some y → py_lt item y = false) →
  heappush heap item = heap ++ [item].
Proof.
  intros Hge. unfold heappush, _siftdown.
  rewrite length_app. cbn [length].
  replace (length heap + 1 - 1) with (length heap) by lia.
  assert ((heap ++ [item]) !! length heap = Some item) as Hlast.
  { rewrite lookup_app_r by lia. by rewrite Nat.sub_diag. }
  rewrite Hlast.
  destruct (length heap) as [|n] eqn:Hlen.
  - cbn [_siftdown_loop]. by apply list_insert_id.
  - cbn [_siftdown_loop]. rewrite bool_decide_eq_true_2 by lia.
    assert (parent (S n) < length heap) as Hlt.
    { rewrite Hlen. apply parent_lt. lia. }
    destruct (lookup_lt_is_Some_2 heap _ Hlt) as [y Hy].
    rewrite lookup_app_l, Hy by done.
    rewrite (Hge y Hy). by apply list_insert_id.
Qed.

Lemma push_handles_append (n : nat) (heap : list TimerHandle) (when : Z)
    (seq : nat) :
  Forall (λ h, (_when h ≤ when)%Z) heap →
  push_handles n heap when seq = heap ++ handles_from n when seq.
Proof.
  revert heap when seq.
  induction n as [|n IH]; intros heap when seq Hle;
    cbn [push_handles handles_from]; [by rewrite app_nil_r|].
  rewrite heappush_append.
  - rewrite IH, <- app_assoc; [done|].
    apply Forall_app. split.
    + eapply Forall_impl; [exact Hle|]. cbn. intros; lia.
    + constructor; [cbn; lia | constructor].
  - intros y Hy. apply TimerHandle_lt_false. left. cbn.
    rewrite Forall_lookup in Hle. specialize (Hle _ _ Hy). cbn in Hle. lia.
Qed.

Lemma push_tuples_append (n : nat) (heap : list (Z * TimerHandle)) (when : Z)
    (seq : nat) :
  Forall (λ t, (t.1 ≤ when)%Z) heap →
  push_tuples n heap when seq = heap ++ tuples_from n when seq.
Proof.
  unfold tuples_from. revert heap when seq.
  induction n as [|n IH]; intros heap when seq Hle;
    cbn [push_tuples handles_from fmap list_fmap]; [by rewrite app_nil_r|].
  rewrite heappush_append.
  - rewrite IH, <- app_assoc; [done|].
    apply Forall_app. split.
    + eapply Forall_impl; [exact Hle|]. cbn. intros; lia.
    + constructor; [cbn; lia | constructor].
  - intros y Hy. apply tuple_lt_false. left. cbn.
    rewrite Forall_lookup in Hle. specialize (Hle _ _ Hy). cbn in Hle. lia.
Qed.

Lemma handles_from_later (n : nat) (when : Z) (seq : nat) :
  Forall (λ h, (when < _when h)%Z ∧ _callback h = "callback")
    (handles_from n when seq).
Proof.
  revert when seq. induction n as [|n IH]; intros when seq;
    cbn [handles_from]; constructor; [cbn; split; [lia|done]|].
  eapply Forall_impl; [apply IH|]. cbn. intros h [? ?]. split; [lia|done].
Qed.

Lemma handles_from_sorted (n : nat) (when : Z) (seq : nat) :
  StronglySorted (λ a b : TimerHandle, py_lt b a = false)
    (handles_from n when seq).
Proof.
  revert when seq. induction n as [|n IH]; intros when seq;
    cbn [handles_from]; constructor; [apply IH|].
  eapply Forall_impl; [apply handles_from_later|]. cbn.
  intros h [Hh _].
  apply (TimerHandle_lt_false h (mkTimerHandle (when + 1) seq "callback")).
  left. cbn. lia.
Qed.

Lemma handles_from_length (n : nat) (when : Z) (seq : nat) :
  length (handles_from n when seq) = n.
Proof.
  revert when seq. induction n as [|n IH]; intros when seq;
    cbn [handles_from length]; [done|]. by rewrite IH.
Qed.

Lemma handle_eq (a b : TimerHandle) :
  _when a = _when b → _seq a = _seq b → _callback a = _callback b → a = b.
Proof. destruct a, b. cbn. congruence. Qed.

Lemma drain_handles_from (n : nat) (when : Z) (seq : nat) :
  drain (handles_from n when seq) = handles_from n when seq.
Proof.
  assert (is_heap (handles_from n when seq)) as Hheap.
  { rewrite <- (app_nil_l (handles_from n when seq)),
      <- push_handles_append by constructor.
    generalize (@nil TimerHandle), (is_heap_nil (A := TimerHandle)).
    revert when seq. induction n as [|n IH]; intros when seq heap Hh;
      cbn [push_handles]; [done|].
    apply IH. by apply heappush_spec. }
  destruct (drain_spec _ Hheap) as [Hperm Hsorted].
  apply (StronglySorted_unique_strong
           (λ a b : TimerHandle, py_lt b a = false));
    [|done|apply handles_from_sorted|done].
  intros x1 x2 Hx1 Hx2 H12 H21. rewrite Hperm in Hx1.
  pose proof (handles_from_later n when seq) as Hall.
  rewrite Forall_forall in Hall.
  destruct (Hall x1 Hx1) as [_ Hc1]. destruct (Hall x2 Hx2) as [_ Hc2].
  apply TimerHandle_lt_false in H12, H21.
  apply handle_eq; [lia | lia | congruence].
Qed.

Lemma drain_tuples_from (n : nat) (when : Z) (seq : nat) :
  drain (tuples_from n when seq) = tuples_from n when seq.
Proof.
  assert (is_heap (tuples_from n when seq)) as Hheap.
  { rewrite <- (app_nil_l (tuples_from n when seq)),
      <- push_tuples_append by constructor.
    generalize (@nil (Z * TimerHandle)),
      (is_heap_nil (A := Z * TimerHandle)).
    revert when seq. induction n as [|n IH]; intros when seq heap Hh;
      cbn [push_tuples]; [done|].
    apply IH. by apply heappush_spec. }
  destruct (drain_spec _ Hheap) as [Hperm Hsorted].
  apply (StronglySorted_unique_strong
           (λ a b : Z * TimerHandle, py_lt b a = false));
    [|done| |done].
  - intros x1 x2 Hx1 Hx2 H12 H21. rewrite Hperm in Hx1.
    unfold tuples_from in Hx1, Hx2.
    apply list_elem_of_fmap in Hx1 as (h1 & -> & Hh1).
    apply list_elem_of_fmap in Hx2 as (h2 & -> & Hh2).
    pose proof (handles_from_later n when seq) as Hall.
    rewrite Forall_forall in Hall.
    destruct (Hall h1 Hh1) as [_ Hc1]. destruct (Hall h2 Hh2) as [_ Hc2].
    apply tuple_lt_false in H12, H21. cbn [fst snd] in *.
    assert (h1 = h2) as ->; [|done].
    destruct H12 as [? | [? H12]]; destruct H21 as [? | [? H21]]; try lia.
    apply TimerHandle_lt_false in H12, H21.
    apply handle_eq; [lia | lia | congruence].
  - unfold tuples_from.
    pose proof (handles_from_sorted n when seq) as Hs.
    induction Hs as [|h l Hl IH Hh]; cbn [fmap list_fmap]; constructor.
    + apply IH.
    + rewrite Forall_fmap. eapply Forall_impl; [exact Hh|]. cbn.
      intros y Hy. apply tuple_lt_false. cbn [fst snd].
      apply TimerHandle_lt_false in Hy.
      destruct Hy as [? | [? ?]]; [by left|]. right. split; [done|].
      apply TimerHandle_lt_false. lia.
Qed.

(** X10.  The [for] loops of [heap_handle] and [heap_tuple], for any number
    of handles and any first deadline and sequence number: as every handle
    is later than all those pushed before, no [heappush] moves an item, and
    the heap after the loop is the list of the handles (of the tuples) in
    the order of construction. *)
Theorem pushes_in_deadline_order_append (n : nat) (when : Z) (seq : nat) :
  push_handles n [] when seq = handles_from n when seq
  ∧ push_tuples n [] when seq = tuples_from n when seq
  ∧ length (push_handles n [] when seq) = n
  ∧ (∀ scheduled handle,
       Forall (λ h, (_when h < _when handle)%Z) scheduled →
       heappush scheduled handle = scheduled ++ [handle]).
Proof.
  split; [|split; [|split]].
  - by rewrite push_handles_append.
  - by rewrite push_tuples_append.
  - rewrite push_handles_append by constructor. apply handles_from_length.
  - intros scheduled handle Hlt. apply heappush_append.
    intros y Hy. apply TimerHandle_lt_false. left.
    rewrite Forall_lookup in Hlt. exact (Hlt _ _ Hy).
Qed.

(** X11.  The [while] loops of [heap_handle] and [heap_tuple], for any
    number of handles: the handles are popped in the order in which they
    were constructed and pushed, as many as were pushed, and the bare heap
    and the heap of tuples pop the same handles in the same order; the
    benchmark's two functions are the case of 100 handles from deadline 1. *)
Theorem loops_pop_in_push_order (n : nat) (when : Z) (seq : nat) :
  drain (push_handles n [] when seq) = handles_from n when seq
  ∧ drain (push_tuples n [] when seq) = tuples_from n when seq
  ∧ (drain (push_tuples n [] when seq)).*2
    = drain (push_handles n [] when seq)
  ∧ (drain (push_tuples n [] when seq)).*1
    = _when <$> drain (push_handles n [] when seq)
  ∧ length (drain (push_handles n [] when seq)) = n
  ∧ heap_handle = handles_from 100 1 0
  ∧ heap_tuple = tuples_from 100 1 0.
Proof.
  rewrite push_handles_append, push_tuples_append by constructor.
  cbn [app]. rewrite drain_handles_from, drain_tuples_from.
  split; [done|]. split; [done|].
  unfold tuples_from. rewrite <- !list_fmap_compose.
  split; [by rewrite <- (list_fmap_id (handles_from n when seq)) at 2|].
  split; [done|]. split; [apply handles_from_length|].
  unfold heap_handle, heap_tuple.
  rewrite push_handles_append, push_tuples_append by constructor.
  cbn [app]. by rewrite drain_handles_from, drain_tuples_from.
Qed.

End loop_extras.
